(** * Generated C corpus of the 1im backend: a shallow embedding

    The repository holds C programs emitted by the code generator
    (examples/codegen and bench/codegen).  Each program is embedded
    below as a Rocq function in a small state-and-fault monad whose state is the
    program's memory (stack arrays) together with an event trace.  Thread
    creation and joining are embedded as a scheduler over a pool of threads.

    Conventions of the embedding:
    - [int32_t] and [int64_t] values are [Z] with the wrap-around written
      out ([wrap32], [wrap64]);
    - [const char*] is [option string], [None] being [NULL];
    - a scalar local is a let-bound value; a local of aggregate type is a
      record value whose reads are logged ([EvVar], [EvField]);
    - a stack array is a block of the memory, addressed by a [ptr];
    - every [printf] call logs one [EvOut] with its text, newline dropped;
    - every generated function logs [EvCall] on entry. *)

From Stdlib Require Import ZArith NArith Lia List Permutation FunctionalExtensionality.
From stdpp Require Import base list strings pretty.

Open Scope Z_scope.

(** ** Machine integers *)

Module Machine.

Definition wrap (bits : Z) (z : Z) : Z :=
  (z + 2 ^ (bits - 1)) mod 2 ^ bits - 2 ^ (bits - 1).

Definition wrap32 : Z -> Z := wrap 32.
Definition wrap64 : Z -> Z := wrap 64.

Definition in_i32 (z : Z) : Prop := - 2 ^ 31 <= z < 2 ^ 31.
Definition in_i64 (z : Z) : Prop := - 2 ^ 63 <= z < 2 ^ 63.

End Machine.
Export Machine.

(** ** Events, memory and the monad *)

Module Sem.

Record ptr := Ptr { p_blk : nat; p_off : nat }.

Definition ptr_add (p : ptr) (i : nat) : ptr :=
  {| p_blk := p_blk p; p_off := (p_off p + i)%nat |}.

Inductive event :=
| EvOut (line : string)
| EvCall (fn : string)
| EvVar (x : string)
| EvField (x : string) (f : string)
| EvLoad (p : ptr)
| EvStore (p : ptr)
| EvExit (code : Z).

Inductive fault := DivByZero | OutOfBounds | Uninit | NullDeref | OutOfFuel.

Inductive res (A : Type) :=
| Ok (a : A)
| Err (e : fault).
Arguments Ok {A} a.
Arguments Err {A} e.

(** A memory cell is [None] until it is first written. *)
Definition block := list (option Z).

Record world := World { w_mem : list block; w_trace : list event }.

Definition empty_world : world := {| w_mem := []; w_trace := [] |}.

Definition M (A : Type) : Type := world -> res (A * world).

Definition ret {A} (a : A) : M A := fun w => Ok (a, w).

Definition bind {A B} (m : M A) (k : A -> M B) : M B :=
  fun w => match m w with
           | Ok (a, w') => k a w'
           | Err e => Err e
           end.

Definition fail {A} (e : fault) : M A := fun _ => Err e.

Declare Scope c_scope.
Delimit Scope c_scope with C.
Notation "'let*' x := m 'in' k" := (bind m (fun x => k))
  (at level 10, x pattern, m at level 100, k at level 200) : c_scope.
Notation "m ;; k" := (bind m (fun _ => k))
  (at level 100, k at level 200, right associativity) : c_scope.
Open Scope c_scope.

Definition log (e : event) : M unit :=
  fun w => Ok (tt, {| w_mem := w_mem w; w_trace := w_trace w ++ [e] |}).

Definition enter (fn : string) : M unit := log (EvCall fn).

Definition rdvar {A} (x : string) (v : A) : M A := log (EvVar x);; ret v.

Definition rd {A} (x f : string) (v : A) : M A := log (EvField x f);; ret v.

(** [printf("%d\n", (int)z)], [printf("%" PRId64 "\n", (int64_t)z)] *)
Definition printf_d (z : Z) : M unit := log (EvOut (pretty z)).

(** [printf("%s\n", s)] *)
Definition printf_s (s : option string) : M unit :=
  match s with
  | Some s => log (EvOut s)
  | None => fail NullDeref
  end.

(** [printf("%s\n", b ? "true" : "false")] *)
Definition printf_b (b : bool) : M unit :=
  printf_s (Some (if b then "true" else "false")).

(** Stack arrays *)

Definition alloc (cells : block) : M ptr :=
  fun w => Ok ({| p_blk := length (w_mem w); p_off := 0 |},
               {| w_mem := w_mem w ++ [cells]; w_trace := w_trace w |}).

Definition peek (m : list block) (p : ptr) : option (option Z) :=
  match m !! p_blk p with
  | Some b => b !! p_off p
  | None => None
  end.

Definition poke (m : list block) (p : ptr) (v : Z) : list block :=
  match m !! p_blk p with
  | Some b => <[p_blk p := <[p_off p := Some v]> b]> m
  | None => m
  end.

Definition load (p : ptr) : M Z :=
  fun w => match peek (w_mem w) p with
           | Some (Some v) => Ok (v, {| w_mem := w_mem w; w_trace := w_trace w ++ [EvLoad p] |})
           | Some None => Err Uninit
           | None => Err OutOfBounds
           end.

Definition store (p : ptr) (v : Z) : M unit :=
  fun w => match peek (w_mem w) p with
           | Some _ => Ok (tt, {| w_mem := poke (w_mem w) p v; w_trace := w_trace w ++ [EvStore p] |})
           | None => Err OutOfBounds
           end.

(** [memcpy(dst, src, n * sizeof(int32_t))] from a temporary aggregate *)
Fixpoint memcpy (dst : ptr) (src : list Z) (n : nat) : M unit :=
  match n with
  | O => ret tt
  | S n' => match src with
            | v :: src' => store dst v;; memcpy (ptr_add dst 1) src' n'
            | [] => fail OutOfBounds
            end
  end.

(** Arithmetic of the generated expressions *)

Definition rem32 (a b : Z) : M Z :=
  if b =? 0 then fail DivByZero else ret (wrap32 (Z.rem a b)).

Definition rem64 (a b : Z) : M Z :=
  if b =? 0 then fail DivByZero else ret (wrap64 (Z.rem a b)).

(** [while (cond) body], cut off after [fuel] iterations.  The fuel is a
    binary number and the loop leaves as soon as the condition fails, so a
    large bound costs nothing.  [iter1] is one round: the test, then the
    body; its flag tells whether the loop goes on. *)
Definition iter1 {St : Type} (cond : St -> M bool) (body : St -> M St)
    (s : St) : M (bool * St) :=
  let* b := cond s in
  if b then (let* s' := body s in ret (true, s')) else ret (false, s).

Definition iter_then {St : Type} (f g : St -> M (bool * St)) (s : St)
    : M (bool * St) :=
  let* r := f s in
  if fst r then g (snd r) else ret r.

Fixpoint iter_pos {St : Type} (step : St -> M (bool * St)) (p : positive)
    (s : St) {struct p} : M (bool * St) :=
  match p with
  | xH => step s
  | xO p' => iter_then (iter_pos step p') (iter_pos step p') s
  | xI p' => iter_then step (iter_then (iter_pos step p') (iter_pos step p')) s
  end.

Definition iter_N {St : Type} (step : St -> M (bool * St)) (n : N)
    (s : St) : M (bool * St) :=
  match n with
  | N0 => ret (true, s)
  | Npos p => iter_pos step p s
  end.

Definition while_loop {St : Type} (cond : St -> M bool) (body : St -> M St)
    (fuel : N) (s : St) : M St :=
  let* r := iter_N (iter1 cond body) fuel s in
  if fst r then
    (let* b := cond (snd r) in
     if b then fail OutOfFuel else ret (snd r))
  else ret (snd r).

(** [for (...; cond; incr) body] *)
Definition for_loop {St : Type} (cond : St -> M bool) (body : St -> M St)
    (incr : St -> St) (fuel : N) : St -> M St :=
  while_loop cond (fun s => let* s' := body s in ret (incr s')) fuel.

(** What a run shows to the outside *)

Definition out_line (e : event) : option string :=
  match e with EvOut l => Some l | _ => None end.

Definition stdout (t : list event) : list string := omap out_line t.

Definition is_field_read (f : string) (e : event) : bool :=
  match e with EvField _ g => bool_decide (f = g) | _ => false end.

Definition is_call (fn : string) (e : event) : bool :=
  match e with EvCall g => bool_decide (fn = g) | _ => false end.

Definition is_var_read (x : string) (e : event) : bool :=
  match e with EvVar y => bool_decide (x = y) | _ => false end.

Definition is_store (e : event) : bool :=
  match e with EvStore _ => true | _ => false end.

Definition load_of (e : event) : option ptr :=
  match e with EvLoad p => Some p | _ => None end.

End Sem.
Export Sem.

(** ** try_catch.c and try_propagate.c: the result aggregate *)

Module ErrI32Str.

Record err_i32_str := { ok : bool; value : Z; err : option string }.

Definition err_i32_str_ok (value : Z) : M err_i32_str :=
  enter "err_i32_str_ok";;
  ret {| ok := true; value := value; err := None |}.

Definition err_i32_str_err (err : option string) : M err_i32_str :=
  enter "err_i32_str_err";;
  ret {| ok := false; value := 0; err := err |}.

Definition wf (r : err_i32_str) : Prop :=
  if ok r then err r = None else value r = 0.

End ErrI32Str.

Module TryCatch.
Import ErrI32Str.

Definition fail : M err_i32_str :=
  enter "fail";;
  err_i32_str_err (Some "boom").

Definition main : M Z :=
  enter "main";;
  let* __try0 := fail in
  let* o := rd "__try0" "ok" (ok __try0) in
  (if negb o then
     let* err := rd "__try0" "err" (err __try0) in
     printf_s err
   else ret tt);;
  ret 0.

End TryCatch.

Module TryPropagate.
Import ErrI32Str.

Definition fail : M err_i32_str :=
  enter "fail";;
  err_i32_str_err (Some "boom").

Definition wrap : M err_i32_str :=
  enter "wrap";;
  let* __try0 := fail in
  let* o := rd "__try0" "ok" (ok __try0) in
  if negb o then
    let* e := rd "__try0" "err" (err __try0) in
    err_i32_str_err e
  else
    let* x := rd "__try0" "value" (value __try0) in
    err_i32_str_ok x.

Definition main : M Z :=
  enter "main";;
  let* __try1 := wrap in
  let* o := rd "__try1" "ok" (ok __try1) in
  (if negb o then
     let* err := rd "__try1" "err" (err __try1) in
     printf_s err
   else ret tt);;
  ret 0.

End TryPropagate.

(** ** gcd.c *)

Module Gcd.

(** The [while] statement of [main], on the pair of its locals [(a, b)]. *)
Definition main_while (fuel : N) : Z * Z -> M (Z * Z) :=
  while_loop
    (fun '(a, b) => ret (negb (b =? 0)))
    (fun '(a, b) =>
       let temp := b in
       let* b := rem32 a b in
       let a := temp in
       ret (a, b))
    fuel.

Definition main (fuel : N) : M Z :=
  enter "main";;
  let a := 48 in
  let b := 18 in
  let* (a, b) := main_while fuel (a, b) in
  printf_d a;;
  ret 0.

End Gcd.

(** ** prime.c *)

Module Prime.

Definition main (fuel : N) : M Z :=
  enter "main";;
  let n := 29 in
  let is_prime := true in
  let* is_prime :=
    if n <? 2 then ret false
    else
      let i := 2 in
      let* (i, is_prime) :=
        while_loop
          (fun '(i, is_prime) => ret (wrap32 (i * i) <=? n))
          (fun '(i, is_prime) =>
             let* r := rem32 n i in
             let is_prime := if r =? 0 then false else is_prime in
             let i := wrap32 (i + 1) in
             ret (i, is_prime))
          fuel (i, is_prime) in
      ret is_prime in
  printf_b is_prime;;
  ret 0.

End Prime.

(** ** Slices: for_array.c and function_arrays.c *)

Module SliceI32.

(** [typedef struct { int32_t* data; size_t len; } slice_i32;] *)
Record slice_i32 := { data : ptr; len : Z }.

(** [size_t] increment of a loop index *)
Definition size_succ (i : Z) : Z := (i + 1) mod 2 ^ 64.

End SliceI32.

Module ForArray.
Import SliceI32.

Definition main (fuel : N) : M Z :=
  enter "main";;
  let* nums := alloc [Some 1; Some 2; Some 3] in
  for_loop
    (fun __i0 => ret (__i0 <? 3))
    (fun __i0 =>
       let* n := load (ptr_add nums (Z.to_nat __i0)) in
       printf_d n;;
       ret __i0)
    size_succ fuel 0;;
  let* s_data := alloc [Some 4; Some 5; Some 6] in
  let s := {| data := s_data; len := 3 |} in
  let* __iter3 := rdvar "s" s in
  for_loop
    (fun __i2 =>
       let* l := rd "__iter3" "len" (len __iter3) in
       ret (__i2 <? l))
    (fun __i2 =>
       let* d := rd "__iter3" "data" (data __iter3) in
       let* x := load (ptr_add d (Z.to_nat __i2)) in
       printf_d x;;
       ret __i2)
    size_succ fuel 0;;
  ret 0.

End ForArray.

Module FunctionArrays.
Import SliceI32.

(** [typedef struct { int32_t value[3]; } arrret_arr3_i32;] *)
Record arrret_arr3_i32 := { value : list Z }.

(** The array parameter [int32_t nums[3]] is a pointer to the caller's array. *)
Definition first (nums : ptr) : M Z :=
  enter "first";;
  load (ptr_add nums 0).

Definition make3 : M arrret_arr3_i32 :=
  enter "make3";;
  ret {| value := [7; 8; 9] |}.

Definition id_slice (nums : slice_i32) : M slice_i32 :=
  enter "id_slice";;
  ret nums.

Definition main : M Z :=
  enter "main";;
  let* arr := alloc [None; None; None] in
  let* r := make3 in
  memcpy arr (value r) 3;;
  let* x := first arr in
  printf_d x;;
  let* s_data := alloc [Some 4; Some 5; Some 6] in
  let s := {| data := s_data; len := 3 |} in
  let* s2 := (let* a := rdvar "s" s in id_slice a) in
  let* d := rd "s2" "data" (data s2) in
  let* y := load (ptr_add d 1) in
  printf_d y;;
  ret 0.

End FunctionArrays.

(** ** Threads: [pthread_create] and [pthread_join]

    A thread is the list of its remaining actions; the scheduler picks any
    thread whose next action is enabled.  [ADo m] runs sequential code [m]
    in one step; the events it logs are tagged with the thread's number
    (main is thread 0, a created thread takes the next free number).
    [AJoin h] is enabled once the thread that handle [h] names has no
    action left.  [AReturn] ends the process, as a return from [main]
    does.  [pthread_create] is taken to succeed (the generated code
    ignores its result), and a [printf] line is written in one piece. *)

Module Threads.

Inductive action :=
| ADo (m : M unit)
| ACreate (h : nat) (start : M unit)
| AJoin (h : nat)
| AReturn (code : Z).

Inductive status := Running | Exited (code : Z) | Faulted (e : fault).

Record config := Config {
  c_pool : list (list action);
  c_handles : list (option nat);
  c_mem : list block;
  c_trace : list (nat * event);
  c_status : status }.

(** A [main] with thread handles: the size of its [pthread_t] array and
    its statements. *)
Record program := Program { handles : nat; code : list action }.

Definition init (p : program) : config :=
  {| c_pool := [code p];
     c_handles := replicate (handles p) None;
     c_mem := [];
     c_trace := [];
     c_status := Running |}.

Definition step_thread (c : config) (i : nat) : option config :=
  match c_status c, c_pool c !! i with
  | Running, Some (a :: rest) =>
      let pool := <[i := rest]> (c_pool c) in
      match a with
      | ADo m =>
          match m {| w_mem := c_mem c; w_trace := [] |} with
          | Ok (_, w) =>
              Some {| c_pool := pool; c_handles := c_handles c;
                      c_mem := w_mem w;
                      c_trace := c_trace c ++ map (pair i) (w_trace w);
                      c_status := Running |}
          | Err e =>
              Some {| c_pool := pool; c_handles := c_handles c;
                      c_mem := c_mem c; c_trace := c_trace c;
                      c_status := Faulted e |}
          end
      | ACreate h start =>
          Some {| c_pool := pool ++ [[ADo start]];
                  c_handles := <[h := Some (length (c_pool c))]> (c_handles c);
                  c_mem := c_mem c; c_trace := c_trace c;
                  c_status := Running |}
      | AJoin h =>
          match c_handles c !! h with
          | Some (Some t) =>
              match c_pool c !! t with
              | Some [] =>
                  Some {| c_pool := pool; c_handles := c_handles c;
                          c_mem := c_mem c; c_trace := c_trace c;
                          c_status := Running |}
              | _ => None
              end
          | _ =>
              Some {| c_pool := pool; c_handles := c_handles c;
                      c_mem := c_mem c; c_trace := c_trace c;
                      c_status := Faulted Uninit |}
          end
      | AReturn code =>
          Some {| c_pool := pool; c_handles := c_handles c;
                  c_mem := c_mem c;
                  c_trace := c_trace c ++ [(i, EvExit code)];
                  c_status := Exited code |}
      end
  | _, _ => None
  end.

Definition succs (c : config) : list config :=
  omap (step_thread c) (seq 0 (length (c_pool c))).

(** [run c cf]: some schedule takes [c] to [cf], where nothing can move. *)
Inductive run : config -> config -> Prop :=
| run_done c : succs c = [] -> run c c
| run_step c c' cf : In c' (succs c) -> run c' cf -> run c cf.

(** All schedules of at most [n] steps; [None] stands for one cut short. *)
Fixpoint finals (n : nat) (c : config) : list (option config) :=
  match succs c with
  | [] => [Some c]
  | cs => match n with
          | O => [None]
          | S n' => flat_map (finals n') cs
          end
  end.

(** The thread entry of every task-parallel block.  [arg] points at a slot
    of the block's table of function references. *)
Definition __1im_par_runner (fns : list (M unit)) (arg : nat) : M unit :=
  enter "__1im_par_runner";;
  match fns !! arg with
  | Some fn => fn
  | None => fail OutOfBounds
  end.

(** Observable effects of a run *)

Definition lines (t : list (nat * event)) : list string := stdout (map snd t).

Definition observable (e : event) : bool :=
  match e with EvOut _ | EvExit _ => true | _ => false end.

Definition task_effects (t : list (nat * event)) : list (nat * event) :=
  filter (fun x => fst x <> 0%nat /\ observable (snd x) = true) t.

Definition main_effects (t : list (nat * event)) : list event :=
  map snd (filter (fun x => fst x = 0%nat /\ observable (snd x) = true) t).

End Threads.
Export Threads.

(** ** parallel.c *)

Module Parallel.

Definition show_a : M unit :=
  enter "show_a";;
  printf_d 100.

Definition show_b : M unit :=
  enter "show_b";;
  printf_d 200.

(** The statements of [main] before its task-parallel block.  The loop
    carries [#pragma omp parallel for], a hint only: it is the plain loop. *)
Definition main_head (fuel : N) : M unit :=
  enter "main";;
  let* nums := alloc [Some 1; Some 2; Some 3; Some 4] in
  for_loop
    (fun __i0 => ret (__i0 <? 4))
    (fun __i0 =>
       let* n := load (ptr_add nums (Z.to_nat __i0)) in
       printf_d n;;
       ret __i0)
    SliceI32.size_succ fuel 0;;
  ret tt.

Definition __par_fns3 : list (M unit) := [show_a; show_b].

Definition main (fuel : N) : program :=
  {| handles := 2;
     code := [ ADo (main_head fuel);
               ACreate 0 (__1im_par_runner __par_fns3 0);
               ACreate 1 (__1im_par_runner __par_fns3 1);
               AJoin 0;
               AJoin 1;
               AReturn 0 ] |}.

End Parallel.

(** ** parallel_block_bench.c and parallel_block_seq_bench.c

    The two files define [work1] .. [work4] with the same text. *)

Module BenchWork.

Definition work (name : string) (fuel : N) : M unit :=
  enter name;;
  let start := 0 in
  let n := 1000000000 in
  let sum := 0 in
  let* (i, sum) :=
    for_loop
      (fun '(i, sum) => ret (i <? n))
      (fun '(i, sum) => ret (i, wrap64 (sum + i)))
      (fun '(i, sum) => (wrap64 (i + 1), sum))
      fuel (start, sum) in
  printf_d sum.

Definition work1 : N -> M unit := work "work1".
Definition work2 : N -> M unit := work "work2".
Definition work3 : N -> M unit := work "work3".
Definition work4 : N -> M unit := work "work4".

End BenchWork.

Module ParallelBlockBench.
Import BenchWork.

Definition __par_fns1 (fuel : N) : list (M unit) :=
  [work1 fuel; work2 fuel; work3 fuel; work4 fuel].

Definition main (fuel : N) : program :=
  {| handles := 4;
     code := [ ADo (enter "main");
               ACreate 0 (__1im_par_runner (__par_fns1 fuel) 0);
               ACreate 1 (__1im_par_runner (__par_fns1 fuel) 1);
               ACreate 2 (__1im_par_runner (__par_fns1 fuel) 2);
               ACreate 3 (__1im_par_runner (__par_fns1 fuel) 3);
               AJoin 0;
               AJoin 1;
               AJoin 2;
               AJoin 3;
               AReturn 0 ] |}.

End ParallelBlockBench.

Module ParallelBlockSeqBench.
Import BenchWork.

Definition main (fuel : N) : M Z :=
  enter "main";;
  work1 fuel;;
  work2 fuel;;
  work3 fuel;;
  work4 fuel;;
  ret 0.

End ParallelBlockSeqBench.

(** ** toyhash_parallel.c

    [worker1] .. [worker4] differ in the seed of [h] only. *)

Module ToyhashParallel.

Definition worker (name : string) (seed : Z) (fuel : N) : M unit :=
  enter name;;
  let start := 0 in
  let runs := 2500 in
  let inner := 1000 in
  let mod_ := 2147483647 in
  let h := seed in
  let* (r, h) :=
    for_loop
      (fun '(r, h) => ret (r <? runs))
      (fun '(r, h) =>
         let i := 0 in
         let* (i, h) :=
           while_loop
             (fun '(i, h) => ret (i <? inner))
             (fun '(i, h) =>
                let* h := rem64 (wrap64 (wrap64 (wrap64 (h * 31) + i) + r)) mod_ in
                let i := wrap64 (i + 1) in
                ret (i, h))
             fuel (i, h) in
         ret (r, h))
      (fun '(r, h) => (wrap64 (r + 1), h))
      fuel (start, h) in
  printf_d h.

Definition worker1 : N -> M unit := worker "worker1" 7.
Definition worker2 : N -> M unit := worker "worker2" 11.
Definition worker3 : N -> M unit := worker "worker3" 13.
Definition worker4 : N -> M unit := worker "worker4" 17.

Definition __par_fns1 (fuel : N) : list (M unit) :=
  [worker1 fuel; worker2 fuel; worker3 fuel; worker4 fuel].

Definition main (fuel : N) : program :=
  {| handles := 4;
     code := [ ADo (enter "main");
               ACreate 0 (__1im_par_runner (__par_fns1 fuel) 0);
               ACreate 1 (__1im_par_runner (__par_fns1 fuel) 1);
               ACreate 2 (__1im_par_runner (__par_fns1 fuel) 2);
               ACreate 3 (__1im_par_runner (__par_fns1 fuel) 3);
               AJoin 0;
               AJoin 1;
               AJoin 2;
               AJoin 3;
               AReturn 0 ] |}.

End ToyhashParallel.

(** ** The emitted units: preamble and task-parallel blocks

    For each file, the headers its [#include] lines name, in order, and
    the function tables of its task-parallel blocks (one list of callees
    per [__par_fns] array). *)

Module Units.

Record cunit := Unit {
  u_name : string;
  u_includes : list string;
  u_task_blocks : list (list string) }.

Definition full_preamble : list string :=
  ["stdio.h"; "stdint.h"; "inttypes.h"; "stdbool.h"; "string.h"; "stddef.h";
   "pthread.h"].

Definition gcd : cunit :=
  {| u_name := "examples/codegen/gcd.c";
     u_includes := full_preamble; u_task_blocks := [] |}.
Definition prime : cunit :=
  {| u_name := "examples/codegen/prime.c";
     u_includes := full_preamble; u_task_blocks := [] |}.
Definition for_array : cunit :=
  {| u_name := "examples/codegen/for_array.c";
     u_includes := full_preamble; u_task_blocks := [] |}.
Definition function_arrays : cunit :=
  {| u_name := "examples/codegen/function_arrays.c";
     u_includes := full_preamble; u_task_blocks := [] |}.
Definition try_catch : cunit :=
  {| u_name := "examples/codegen/try_catch.c";
     u_includes := full_preamble; u_task_blocks := [] |}.
Definition try_propagate : cunit :=
  {| u_name := "examples/codegen/try_propagate.c";
     u_includes := full_preamble; u_task_blocks := [] |}.
Definition parallel : cunit :=
  {| u_name := "examples/codegen/parallel.c";
     u_includes := full_preamble;
     u_task_blocks := [["show_a"; "show_b"]] |}.
Definition types : cunit :=
  {| u_name := "examples/codegen/types.c";
     u_includes := ["stdio.h"; "stdint.h"; "inttypes.h"; "stdbool.h"; "string.h"];
     u_task_blocks := [] |}.
Definition toyhash_parallel : cunit :=
  {| u_name := "bench/codegen/toyhash_parallel.c";
     u_includes := full_preamble;
     u_task_blocks := [["worker1"; "worker2"; "worker3"; "worker4"]] |}.
Definition parallel_block_bench : cunit :=
  {| u_name := "bench/codegen/parallel_block_bench.c";
     u_includes := full_preamble;
     u_task_blocks := [["work1"; "work2"; "work3"; "work4"]] |}.
Definition parallel_block_seq_bench : cunit :=
  {| u_name := "bench/codegen/parallel_block_seq_bench.c";
     u_includes := full_preamble; u_task_blocks := [] |}.

Definition corpus : list cunit :=
  [prime; for_array; gcd; try_propagate; try_catch; parallel;
   function_arrays; types; toyhash_parallel; parallel_block_bench;
   parallel_block_seq_bench].

(** The headers the preamble is said to hold always: formatted I/O,
    fixed-width integers, boolean type, memory/string utilities, size type. *)
Definition always_present : list string :=
  ["stdio.h"; "stdint.h"; "stdbool.h"; "string.h"; "stddef.h"].

Definition has_include (h : string) (u : cunit) : bool :=
  bool_decide (h ∈ u_includes u).

Definition has_task_block (u : cunit) : bool :=
  negb (bool_decide (u_task_blocks u = [])).

(** The preamble as the claim reads it. *)
Definition preamble_as_claimed (u : cunit) : Prop :=
  (forall h, In h always_present -> has_include h u = true) /\
  (has_include "pthread.h" u = true <-> has_task_block u = true).

End Units.

(** * Vocabulary of the properties *)

(** [emit w t]: the world [w] after the events [t]. *)
Definition emit (w : world) (t : list event) : world :=
  {| w_mem := w_mem w; w_trace := w_trace w ++ t |}.

(** [wp bad m w Q]: from [w], [m] either returns with [Q] or stops on a
    fault outside [bad]. *)
Definition wp {A} (bad : fault -> Prop) (m : M A) (w : world)
    (Q : A -> world -> Prop) : Prop :=
  match m w with
  | Ok (a, w') => Q a w'
  | Err e => ~ bad e
  end.

(** [total m w Q]: from [w], [m] returns, with [Q]. *)
Definition total {A} (m : M A) (w : world) (Q : A -> world -> Prop) : Prop :=
  wp (fun _ => True) m w Q.

(** A computation that takes fuel keeps its result when given more. *)
Definition fuel_mono {A} (f : N -> M A) : Prop :=
  forall n n' w r, (n <= n')%N -> f n w = Ok r -> f n' w = Ok r.

(** [never e m]: from no world does [m] stop on the fault [e]. *)
Definition never {A} (e : fault) (m : M A) : Prop := forall w, m w <> Err e.

(** ** Decidable equality of what a run shows *)

#[global] Instance ptr_eq_dec : EqDecision ptr.
Proof. solve_decision. Defined.

#[global] Instance event_eq_dec : EqDecision event.
Proof. solve_decision. Defined.

#[global] Instance fault_eq_dec : EqDecision fault.
Proof. solve_decision. Defined.

#[global] Instance status_eq_dec : EqDecision status.
Proof. solve_decision. Defined.

Definition holds_at (P : config -> Prop) `{forall c, Decision (P c)}
    (o : option config) : bool :=
  match o with
  | Some c => bool_decide (P c)
  | None => false
  end.

(** The events of a run before [main] returns. *)
Fixpoint before_exit (t : list (nat * event)) : list (nat * event) :=
  match t with
  | [] => []
  | (_, EvExit _) :: _ => []
  | x :: t' => x :: before_exit t'
  end.

(** [reach c c']: some schedule takes [c] to [c'], complete or not. *)
Inductive reach : config -> config -> Prop :=
| reach_here c : reach c c
| reach_next c c' c'' : In c' (succs c) -> reach c' c'' -> reach c c''.

Definition action_never (e : fault) (a : action) : Prop :=
  match a with
  | ADo m | ACreate _ m => never e m
  | _ => True
  end.

Definition config_never (e : fault) (c : config) : Prop :=
  Forall (Forall (action_never e)) (c_pool c) /\ c_status c <> Faulted e.

(** ** The runs of the corpus *)

Definition boom : ErrI32Str.err_i32_str :=
  {| ErrI32Str.ok := false; ErrI32Str.value := 0; ErrI32Str.err := Some "boom" |}.

(** The events of [wrap] and of [main] in try_propagate.c *)
Definition wrap_trace : list event :=
  [EvCall "wrap"; EvCall "fail"; EvCall "err_i32_str_err";
   EvField "__try0" "ok"; EvField "__try0" "err"; EvCall "err_i32_str_err"].

Definition main_trace : list event :=
  EvCall "main" :: wrap_trace
  ++ [EvField "__try1" "ok"; EvField "__try1" "err"; EvOut "boom"].

(** The final world of function_arrays.c *)
Definition function_arrays_final : world :=
  {| w_mem := [[Some 7; Some 8; Some 9]; [Some 4; Some 5; Some 6]];
     w_trace :=
       [EvCall "main"; EvCall "make3";
        EvStore (Ptr 0 0); EvStore (Ptr 0 1); EvStore (Ptr 0 2);
        EvCall "first"; EvLoad (Ptr 0 0); EvOut "7";
        EvVar "s"; EvCall "id_slice"; EvField "s2" "data";
        EvLoad (Ptr 1 1); EvOut "5"] |}.

(** The final world of for_array.c *)
Definition for_array_final : world :=
  {| w_mem := [[Some 1; Some 2; Some 3]; [Some 4; Some 5; Some 6]];
     w_trace :=
       [EvCall "main";
        EvLoad (Ptr 0 0); EvOut "1";
        EvLoad (Ptr 0 1); EvOut "2";
        EvLoad (Ptr 0 2); EvOut "3";
        EvVar "s";
        EvField "__iter3" "len"; EvField "__iter3" "data";
        EvLoad (Ptr 1 0); EvOut "4";
        EvField "__iter3" "len"; EvField "__iter3" "data";
        EvLoad (Ptr 1 1); EvOut "5";
        EvField "__iter3" "len"; EvField "__iter3" "data";
        EvLoad (Ptr 1 2); EvOut "6";
        EvField "__iter3" "len"] |}.

(** The world of parallel.c when its task-parallel block starts *)
Definition parallel_head_final : world :=
  {| w_mem := [[Some 1; Some 2; Some 3; Some 4]];
     w_trace :=
       [EvCall "main";
        EvLoad (Ptr 0 0); EvOut "1"; EvLoad (Ptr 0 1); EvOut "2";
        EvLoad (Ptr 0 2); EvOut "3"; EvLoad (Ptr 0 3); EvOut "4"] |}.

(** What every complete run of parallel.c shows. *)
Definition parallel_joined (cf : config) : Prop :=
  let t := c_trace cf in
  c_status cf = Exited 0 /\
  last t = Some (0%nat, EvExit 0) /\
  (task_effects (before_exit t) = [(1%nat, EvOut "100"); (2%nat, EvOut "200")] \/
   task_effects (before_exit t) = [(2%nat, EvOut "200"); (1%nat, EvOut "100")]) /\
  length (task_effects t) = 2%nat /\
  main_effects t = [EvOut "1"; EvOut "2"; EvOut "3"; EvOut "4"; EvExit 0] /\
  filter (eq "100") (lines t) = ["100"] /\
  filter (eq "200") (lines t) = ["200"].

#[global] Instance parallel_joined_dec cf : Decision (parallel_joined cf).
Proof. unfold parallel_joined. apply _. Defined.

(** A function whose whole effect is to print one line. *)
Definition say (name line : string) : M unit :=
  fun w => Ok (tt, emit w [EvCall name; EvOut line]).

Definition bench_line : string := "499999999500000000".

(** What every complete run of the threaded bench shows. *)
Definition bench_joined (cf : config) : Prop :=
  let t := c_trace cf in
  c_status cf = Exited 0 /\
  last t = Some (0%nat, EvExit 0) /\
  length (task_effects (before_exit t)) = 4%nat /\
  length (task_effects t) = 4%nat /\
  lines t = [bench_line; bench_line; bench_line; bench_line].

#[global] Instance bench_joined_dec cf : Decision (bench_joined cf).
Proof. unfold bench_joined. apply _. Defined.

(** The preamble as the corpus has it. *)
Definition preamble_as_emitted (u : Units.cunit) : Prop :=
  (forall h, In h ["stdio.h"; "stdint.h"; "stdbool.h"; "string.h"] ->
     Units.has_include h u = true) /\
  (Units.has_task_block u = true ->
     Units.has_include "pthread.h" u = true /\ Units.has_include "stddef.h" u = true) /\
  (Units.has_include "pthread.h" u = Units.has_include "stddef.h" u) /\
  (Units.has_include "pthread.h" u = false <-> u = Units.types).

(** ** Statements of the programs, as functions of their locals *)

(** prime.c: the [if] statement of [main], for any value of its local [n];
    it yields the final value of [is_prime]. *)
Definition prime_test (n : Z) (fuel : N) : M bool :=
  let is_prime := true in
  if n <? 2 then ret false
  else
    let i := 2 in
    let* (i, is_prime) :=
      while_loop
        (fun '(i, is_prime) => ret (wrap32 (i * i) <=? n))
        (fun '(i, is_prime) =>
           let* r := rem32 n i in
           let is_prime := if r =? 0 then false else is_prime in
           let i := wrap32 (i + 1) in
           ret (i, is_prime))
        fuel (i, is_prime) in
    ret is_prime.

(** [n] has no divisor from 2 up to its square root. *)
Definition no_small_divisor (n : Z) : Prop :=
  forall d, 2 <= d -> d * d <= n -> n mod d <> 0.

(** toyhash_parallel.c: the hash a worker prints, as iterated arithmetic.
    One inner round maps [(i, h)] to [(i + 1, (31 h + i + r) mod m)]; one
    outer round runs 1000 inner rounds from [i = 0]; a worker runs 2500
    outer rounds from [r = 0] and its seed. *)
Definition toyhash_mix (r : Z) (s : Z * Z) : Z * Z :=
  (fst s + 1, (snd s * 31 + fst s + r) mod 2147483647).

Definition toyhash_round (s : Z * Z) : Z * Z :=
  (fst s + 1, snd (N.iter 1000 (toyhash_mix (fst s)) (0, snd s))).

Definition toyhash (seed : Z) : Z := snd (N.iter 2500 toyhash_round (0, seed)).

(** ** The task-parallel block, for any table of tasks *)

(** A task whose whole effect is to log the events [t]. *)
Definition emits (t : list event) : M unit := fun w => Ok (tt, emit w t).

(** The statements of a task-parallel block over the table [fns], up to
    the [return] that follows it: one [pthread_create] per slot, in order,
    each with handle and slot of the same index, then one [pthread_join]
    per handle, in order. *)
Definition par_block (fns : list (M unit)) (code : Z) : list action :=
  ((fun i => ACreate i (__1im_par_runner fns i)) <$> seq 0 (length fns))
  ++ (AJoin <$> seq 0 (length fns))
  ++ [AReturn code].

(** What the task of slot [i] adds to the trace, as thread [i + 1]. *)
Definition task_trace (evs : list (list event)) (i : nat) : list (nat * event) :=
  map (pair (S i)) (EvCall "__1im_par_runner" :: default [] (evs !! i)).

(** The remaining code of the task of slot [i], finished or not yet run. *)
Definition task_code (fns : list (M unit)) (fin : list nat) (i : nat)
    : list action :=
  if bool_decide (i ∈ fin) then [] else [ADo (__1im_par_runner fns i)].

Definition block_handles (n m : nat) : list (option nat) :=
  (Some <$> seq 1 m) ++ replicate (n - m) None.

(** The state of a block once [main] has run [p] of its statements and
    the tasks of [fin] have finished, in that order. *)
Definition block_state (evs : list (list event)) (code : Z)
    (mem : list block) (pre : list (nat * event))
    (p : nat) (fin : list nat) : config :=
  {| c_pool := drop p (par_block (emits <$> evs) code)
               :: (task_code (emits <$> evs) fin
                     <$> seq 0 (Nat.min p (length evs)));
     c_handles := block_handles (length evs) (Nat.min p (length evs));
     c_mem := mem;
     c_trace := pre ++ concat (map (task_trace evs) fin);
     c_status := Running |}.

(** The state after the [return]. *)
Definition block_final (evs : list (list event)) (code : Z)
    (mem : list block) (pre : list (nat * event)) (fin : list nat) : config :=
  {| c_pool := [] :: (task_code (emits <$> evs) fin <$> seq 0 (length evs));
     c_handles := block_handles (length evs) (length evs);
     c_mem := mem;
     c_trace := (pre ++ concat (map (task_trace evs) fin)) ++ [(0%nat, EvExit code)];
     c_status := Exited code |}.

(** [p] statements of [main] are consistent with the finished tasks
    [fin] of a block of [n] tasks: a finished task has been created, and
    a joined one has finished. *)
Definition block_good (n p : nat) (fin : list nat) : Prop :=
  (p <= 2 * n)%nat /\ NoDup fin /\
  (forall i, i ∈ fin -> (i < Nat.min p n)%nat) /\
  (forall j, (n + j < p)%nat -> j ∈ fin).

(** All [n] tasks have finished, each once. *)
Definition block_done (n : nat) (fin : list nat) : Prop :=
  NoDup fin /\ forall i, i ∈ fin <-> (i < n)%nat.

(** A bound on the steps a state has left: a [pthread_create] counts for
    two, the step of the new thread included. *)
Definition weight (a : action) : nat :=
  match a with ACreate _ _ => 2 | _ => 1 end.

Definition steps_left (c : config) : nat :=
  match c_status c with
  | Running => sum_list_with (sum_list_with weight) (c_pool c)
  | _ => 0
  end.

(** toyhash_parallel.c: the events of its four workers, by slot. *)
Definition toyhash_events : list (list event) :=
  [[EvCall "worker1"; EvOut (pretty (toyhash 7))];
   [EvCall "worker2"; EvOut (pretty (toyhash 11))];
   [EvCall "worker3"; EvOut (pretty (toyhash 13))];
   [EvCall "worker4"; EvOut (pretty (toyhash 17))]].

(** for_array.c: the two loops of [main], for any array and any slice.
    Each yields the final value of its index. *)
Definition for_fixed3 (nums : ptr) (fuel : N) : M Z :=
  for_loop
    (fun __i0 => ret (__i0 <? 3))
    (fun __i0 =>
       let* n := load (ptr_add nums (Z.to_nat __i0)) in
       printf_d n;;
       ret __i0)
    SliceI32.size_succ fuel 0.

Definition for_slice (s : SliceI32.slice_i32) (fuel : N) : M Z :=
  let* __iter3 := rdvar "s" s in
  for_loop
    (fun __i2 =>
       let* l := rd "__iter3" "len" (SliceI32.len __iter3) in
       ret (__i2 <? l))
    (fun __i2 =>
       let* d := rd "__iter3" "data" (SliceI32.data __iter3) in
       let* x := load (ptr_add d (Z.to_nat __i2)) in
       printf_d x;;
       ret __i2)
    SliceI32.size_succ fuel 0.

(** The events of a loop that visits the cells from [p] on, holding [vs]:
    per cell, the events [ce] of the test, the events [be] that start the
    body, the load of the cell and the line of its value. *)
Fixpoint loop_trace (ce be : list event) (p : ptr) (vs : list Z) : list event :=
  match vs with
  | [] => []
  | v :: vs' =>
      ce ++ be ++ [EvLoad p; EvOut (pretty v)]
      ++ loop_trace ce be (ptr_add p 1) vs'
  end.

(** The cells from [p] on hold the values [vs]. *)
Definition holds (m : list block) (p : ptr) (vs : list Z) : Prop :=
  forall k v, vs !! k = Some v -> peek m (ptr_add p k) = Some (Some v).

(** function_arrays.c: the statement of [main] that unwraps the result of
    [make3] into the caller's array, for any array [arr]. *)
Definition unwrap_make3 (arr : ptr) : M unit :=
  let* r := FunctionArrays.make3 in
  memcpy arr (FunctionArrays.value r) 3.

(** The cell [q] is none of the [n] cells from [p] on. *)
Definition outside (p : ptr) (n : nat) (q : ptr) : Prop :=
  forall k, (k < n)%nat -> q <> ptr_add p k.



(** * Properties *)

(** ** Machine integers *)

Lemma wrap32_id z : in_i32 z -> wrap32 z = z.
Proof.
  unfold in_i32, wrap32, wrap. intros H.
  rewrite Z.mod_small; lia.
Qed.

Lemma wrap64_id z : in_i64 z -> wrap64 z = z.
Proof.
  unfold in_i64, wrap64, wrap. intros H.
  rewrite Z.mod_small; lia.
Qed.

(** ** The monad *)

Lemma emit_nil w : emit w [] = w.
Proof. destruct w. unfold emit. simpl. now rewrite app_nil_r. Qed.

Lemma emit_emit w t u : emit (emit w t) u = emit w (t ++ u).
Proof. unfold emit. simpl. now rewrite app_assoc. Qed.

Lemma log_emit e w : log e w = Ok (tt, emit w [e]).
Proof. reflexivity. Qed.

Section WpRules.
Context (bad : fault -> Prop).

Lemma wp_ret {A} (a : A) w (Q : A -> world -> Prop) :
  Q a w -> wp bad (ret a) w Q.
Proof. exact (fun H => H). Qed.

Lemma wp_bind {A B} (m : M A) (k : A -> M B) w (Q : B -> world -> Prop) :
  wp bad m w (fun a w' => wp bad (k a) w' Q) -> wp bad (bind m k) w Q.
Proof.
  unfold wp, bind. destruct (m w) as [[a w']|e]; auto.
Qed.

Lemma wp_mono {A} (m : M A) w (Q Q' : A -> world -> Prop) :
  (forall a w', Q a w' -> Q' a w') -> wp bad m w Q -> wp bad m w Q'.
Proof.
  unfold wp. intros HQ. destruct (m w) as [[a w']|e]; auto.
Qed.

Lemma wp_log e w (Q : unit -> world -> Prop) :
  Q tt (emit w [e]) -> wp bad (log e) w Q.
Proof. exact (fun H => H). Qed.

Lemma wp_ok {A} (m : M A) w a w' (Q : A -> world -> Prop) :
  m w = Ok (a, w') -> Q a w' -> wp bad m w Q.
Proof. unfold wp. now intros ->. Qed.

End WpRules.

Lemma total_ok {A} (m : M A) w (Q : A -> world -> Prop) :
  total m w Q -> exists a w', m w = Ok (a, w') /\ Q a w'.
Proof.
  unfold total, wp. destruct (m w) as [[a w']|e]; [eauto | tauto].
Qed.

(** ** The loop, one round at a time *)

Section LoopEquations.
Context {St : Type}.
Implicit Types (f g h step : St -> M (bool * St)).

Lemma iter_then_assoc f g h :
  iter_then (iter_then f g) h = iter_then f (iter_then g h).
Proof.
  extensionality s. extensionality w.
  unfold iter_then, bind.
  destruct (f s w) as [[[[] s1] w1]|e]; simpl; reflexivity.
Qed.

Lemma iter_pos_eta step p : (fun s => iter_pos step p s) = iter_pos step p.
Proof. reflexivity. Qed.

Lemma iter_pos_xO step p :
  iter_pos step (xO p) = iter_then (iter_pos step p) (iter_pos step p).
Proof. reflexivity. Qed.

Lemma iter_pos_xI step p :
  iter_pos step (xI p)
  = iter_then step (iter_then (iter_pos step p) (iter_pos step p)).
Proof. reflexivity. Qed.

Lemma iter_pos_comm step p :
  iter_then (iter_pos step p) step = iter_then step (iter_pos step p).
Proof.
  induction p as [p IH|p IH|].
  - rewrite iter_pos_xI.
    rewrite !iter_then_assoc, IH.
    rewrite <- (iter_then_assoc (iter_pos step p) step (iter_pos step p)).
    now rewrite IH, iter_then_assoc.
  - rewrite iter_pos_xO.
    rewrite iter_then_assoc, IH, <- iter_then_assoc, IH, iter_then_assoc.
    reflexivity.
  - reflexivity.
Qed.

Lemma iter_pos_succ step p :
  iter_pos step (Pos.succ p) = iter_then step (iter_pos step p).
Proof.
  induction p as [p IH|p IH|].
  - change (Pos.succ p~1) with ((Pos.succ p)~0)%positive.
    rewrite (iter_pos_xO step (Pos.succ p)), IH, iter_pos_xI.
    rewrite iter_then_assoc.
    rewrite <- (iter_then_assoc (iter_pos step p) step (iter_pos step p)).
    rewrite iter_pos_comm. now rewrite iter_then_assoc.
  - reflexivity.
  - reflexivity.
Qed.

Lemma iter_N_succ step n s :
  iter_N step (N.succ n) s = iter_then step (iter_N step n) s.
Proof.
  destruct n as [|p]; simpl.
  - extensionality w. unfold iter_then, bind, ret.
    destruct (step s w) as [[[[] s1] w1]|e]; reflexivity.
  - now rewrite iter_pos_succ.
Qed.

Context (cond : St -> M bool) (body : St -> M St).

Lemma while_loop_0 s :
  while_loop cond body 0 s
  = (let* b := cond s in if b then fail OutOfFuel else ret s).
Proof. reflexivity. Qed.

Lemma while_loop_succ fuel s :
  while_loop cond body (N.succ fuel) s
  = (let* b := cond s in
     if b then (let* s' := body s in while_loop cond body fuel s') else ret s).
Proof.
  unfold while_loop. rewrite iter_N_succ.
  extensionality w. unfold iter_then, iter1, bind, ret.
  destruct (cond s w) as [[[] w1]|e]; simpl; [|reflexivity|reflexivity].
  destruct (body s w1) as [[s' w2]|e]; reflexivity.
Qed.

End LoopEquations.

(** ** Loop rules: invariants, termination, more fuel *)

Section LoopRules.
Context {St : Type} (cond : St -> M bool) (body : St -> M St).

(** An invariant rules out the faults of [bad], whatever the fuel. *)
Lemma while_safe (bad : fault -> Prop) (I Q : St -> world -> Prop) :
  ~ bad OutOfFuel ->
  (forall s w, I s w ->
     wp bad (cond s) w
       (fun b w1 => if b then wp bad (body s) w1 I else Q s w1)) ->
  forall fuel s w, I s w -> wp bad (while_loop cond body fuel s) w Q.
Proof.
  intros Hfuel Hstep fuel.
  induction fuel as [|fuel IH] using N.peano_ind; intros s w HI.
  - rewrite while_loop_0. apply wp_bind.
    eapply wp_mono; [|apply Hstep, HI].
    intros [] w1 H; [exact Hfuel | exact H].
  - rewrite while_loop_succ. apply wp_bind.
    eapply wp_mono; [|apply Hstep, HI].
    intros [] w1 H; [|exact H].
    apply wp_bind. eapply wp_mono; [|exact H].
    intros s' w' HI'. now apply IH.
Qed.

(** An invariant and a measure that each round lowers: the loop returns
    as soon as the fuel covers the measure. *)
Lemma while_total (mu : St -> N) (I Q : St -> world -> Prop) :
  (forall s w, I s w ->
     total (cond s) w
       (fun b w1 =>
          if b then total (body s) w1 (fun s' w' => I s' w' /\ (mu s' < mu s)%N)
          else Q s w1)) ->
  forall fuel s w, I s w -> (mu s <= fuel)%N ->
    total (while_loop cond body fuel s) w Q.
Proof.
  intros Hstep fuel.
  induction fuel as [|fuel IH] using N.peano_ind; intros s w HI Hmu.
  - rewrite while_loop_0. apply wp_bind.
    eapply wp_mono; [|apply Hstep, HI].
    intros [] w1 H; [|exact H].
    exfalso. apply total_ok in H as (s' & w' & _ & _ & Hlt). lia.
  - rewrite while_loop_succ. apply wp_bind.
    eapply wp_mono; [|apply Hstep, HI].
    intros [] w1 H; [|exact H].
    apply wp_bind. eapply wp_mono; [|exact H].
    intros s' w' [HI' Hlt]. apply IH; [exact HI' | lia].
Qed.

Lemma while_loop_more fuel s w r :
  while_loop cond body fuel s w = Ok r ->
  while_loop cond body (N.succ fuel) s w = Ok r.
Proof.
  revert s w. induction fuel as [|fuel IH] using N.peano_ind; intros s w.
  - rewrite while_loop_succ, !while_loop_0. unfold bind.
    destruct (cond s w) as [[[] w1]|e]; [discriminate|auto|discriminate].
  - rewrite (while_loop_succ _ _ (N.succ fuel)), (while_loop_succ _ _ fuel).
    unfold bind.
    destruct (cond s w) as [[[] w1]|e]; [|auto|discriminate].
    destruct (body s w1) as [[s' w2]|e]; [|discriminate].
    apply IH.
Qed.

End LoopRules.

Lemma mono_const {A} (m : M A) : fuel_mono (fun _ => m).
Proof. intros n n' w r _ H. exact H. Qed.

Lemma mono_bind {A B} (f : N -> M A) (k : A -> N -> M B) :
  fuel_mono f -> (forall a, fuel_mono (k a)) ->
  fuel_mono (fun n => bind (f n) (fun a => k a n)).
Proof.
  intros Hf Hk n n' w r Hle. unfold bind.
  destruct (f n w) as [[a w1]|e] eqn:E; [|discriminate].
  rewrite (Hf n n' w _ Hle E). now apply Hk.
Qed.

Lemma mono_while {St} (cond : St -> M bool) (body : St -> M St) s :
  fuel_mono (fun n => while_loop cond body n s).
Proof.
  intros n n' w r Hle H.
  replace n' with (n + (n' - n))%N by lia.
  induction (n' - n)%N as [|k IH] using N.peano_ind.
  - now rewrite N.add_0_r.
  - rewrite N.add_succ_r. now apply while_loop_more.
Qed.

Lemma mono_for {St} (cond : St -> M bool) (body : St -> M St) incr s :
  fuel_mono (fun n => for_loop cond body incr n s).
Proof. apply mono_while. Qed.

(** ** Schedules *)

Lemma finals_stuck n c : succs c = [] -> finals n c = [Some c].
Proof. intros H. destruct n; simpl; now rewrite H. Qed.

Lemma finals_O c : succs c <> [] -> finals 0 c = [None].
Proof. intros H. simpl. now destruct (succs c). Qed.

Lemma finals_S n c :
  succs c <> [] -> finals (S n) c = flat_map (finals n) (succs c).
Proof. intros H. simpl. now destruct (succs c). Qed.

Lemma run_finals c cf :
  run c cf -> forall n, ~ In None (finals n c) -> In (Some cf) (finals n c).
Proof.
  induction 1 as [c Hc|c c' cf Hin Hrun IH]; intros n Hn.
  - rewrite finals_stuck by exact Hc. now left.
  - assert (Hne : succs c <> []) by (intros E; rewrite E in Hin; destruct Hin).
    destruct n as [|n].
    + rewrite finals_O in Hn by exact Hne. exfalso. apply Hn. now left.
    + rewrite finals_S in * by exact Hne.
      apply in_flat_map. exists c'. split; [exact Hin|].
      apply IH. intros HN. apply Hn. apply in_flat_map. eauto.
Qed.

Lemma finals_run n c cf : In (Some cf) (finals n c) -> run c cf.
Proof.
  revert c. induction n as [|n IH]; intros c.
  - destruct (succs c) as [|c0 cs] eqn:E.
    + rewrite finals_stuck by exact E. intros [[= ->]|[]]. now constructor.
    + rewrite finals_O by now rewrite E. intros [[=]|[]].
  - destruct (succs c) as [|c0 cs] eqn:E.
    + rewrite finals_stuck by exact E. intros [[= ->]|[]]. now constructor.
    + rewrite finals_S by now rewrite E.
      intros H. apply in_flat_map in H as (c' & Hin & Hc').
      eapply run_step; [exact Hin | now apply IH].
Qed.

(** The first step of a program whose [main] starts with sequential code. *)
Lemma finals_head n m rest hs w1 :
  m empty_world = Ok (tt, w1) ->
  finals (S n) (init {| handles := hs; code := ADo m :: rest |})
  = finals n {| c_pool := [rest];
                c_handles := replicate hs None;
                c_mem := w_mem w1;
                c_trace := map (pair 0%nat) (w_trace w1);
                c_status := Running |}.
Proof.
  intros H. unfold init. simpl finals. unfold succs, step_thread. simpl.
  unfold empty_world in H. rewrite H. simpl. now rewrite app_nil_r.
Qed.

(** ** try_catch.c, try_propagate.c *)

Section TryPrograms.
Import ErrI32Str.

(** Closes a goal [m w = Ok (a, emit w t)] for straight-line code. *)
Ltac straight :=
  intros; unfold emit; cbn; rewrite <- ?app_assoc; reflexivity.

Lemma err_i32_str_ok_run v w :
  err_i32_str_ok v w
  = Ok ({| ok := true; value := v; err := None |}, emit w [EvCall "err_i32_str_ok"]).
Proof. reflexivity. Qed.

Lemma err_i32_str_err_run e w :
  err_i32_str_err e w
  = Ok ({| ok := false; value := 0; err := e |}, emit w [EvCall "err_i32_str_err"]).
Proof. reflexivity. Qed.

Lemma fail_run w :
  TryPropagate.fail w = Ok (boom, emit w [EvCall "fail"; EvCall "err_i32_str_err"]).
Proof. straight. Qed.

Lemma wrap_run w : TryPropagate.wrap w = Ok (boom, emit w wrap_trace).
Proof. straight. Qed.

Lemma main_run w : TryPropagate.main w = Ok (0, emit w main_trace).
Proof. straight. Qed.

(** C1: in try_propagate, [wrap] returns the error of [fail] unchanged
    right after the test of the discriminant: its trace stops at the
    second call of [err_i32_str_err], with no read of a [value] field and
    no call of [err_i32_str_ok]; the same holds of the whole run of
    [main], whose output is the one line boom. *)
Theorem try_propagate_surfaces_boom :
  forall w,
    TryPropagate.fail w = Ok (boom, emit w [EvCall "fail"; EvCall "err_i32_str_err"]) /\
    TryPropagate.wrap w = Ok (boom, emit w wrap_trace) /\
    TryPropagate.main w = Ok (0, emit w main_trace) /\
    err boom = Some "boom" /\ ok boom = false /\
    last wrap_trace = Some (EvCall "err_i32_str_err") /\
    filter (fun e => is_field_read "value" e = true) main_trace = [] /\
    filter (fun e => is_call "err_i32_str_ok" e = true) main_trace = [] /\
    stdout main_trace = ["boom"].
Proof.
  intros w. split; [apply fail_run|]. split; [apply wrap_run|].
  split; [apply main_run|]. repeat split; reflexivity.
Qed.

(** C9: [err_i32_str_ok v] builds (true, v, NULL) and [err_i32_str_err e]
    builds (false, 0, e); every result built in try_catch and
    try_propagate has its unselected payload field at that default. *)
Theorem result_unselected_field_default :
  (forall v w,
     err_i32_str_ok v w
     = Ok ({| ok := true; value := v; err := None |},
           emit w [EvCall "err_i32_str_ok"])) /\
  (forall e w,
     err_i32_str_err e w
     = Ok ({| ok := false; value := 0; err := e |},
           emit w [EvCall "err_i32_str_err"])) /\
  (forall v w, total (err_i32_str_ok v) w (fun r _ => wf r)) /\
  (forall e w, total (err_i32_str_err e) w (fun r _ => wf r)) /\
  (forall w, total TryCatch.fail w (fun r _ => wf r)) /\
  (forall w, total TryPropagate.fail w (fun r _ => wf r)) /\
  (forall w, total TryPropagate.wrap w (fun r _ => wf r)).
Proof.
  repeat split; intros; reflexivity.
Qed.

End TryPrograms.

(** ** The preamble of the emitted units *)

Section Preamble.
Import Units.

(** C3, as stated, fails: types.c has no size-type include, and gcd.c
    includes pthread.h without any task-parallel block. *)
Lemma preamble_claim_fails :
  In types corpus /\ ~ preamble_as_claimed types /\
  In gcd corpus /\ ~ preamble_as_claimed gcd.
Proof.
  split; [vm_compute; tauto|]. split.
  - intros [H _]. specialize (H "stddef.h"). vm_compute in H.
    assert (false = true) by (apply H; tauto). discriminate.
  - split; [vm_compute; tauto|].
    intros [_ [H _]]. vm_compute in H.
    assert (false = true) by now apply H. discriminate.
Qed.

(** C3, amended: every unit includes stdio.h, stdint.h, stdbool.h and
    string.h; a unit with a task-parallel block includes pthread.h and
    stddef.h; these two come together, and are missing from types.c only,
    so pthread.h is also in units without a task-parallel block. *)
Theorem preamble_of_corpus :
  forall u, In u corpus -> preamble_as_emitted u.
Proof.
  intros u Hu. unfold corpus in Hu. simpl in Hu.
  repeat (destruct Hu as [<-|Hu]); try (destruct Hu);
    (split; [intros h Hh; simpl in Hh;
             repeat (destruct Hh as [<-|Hh]); try (destruct Hh); reflexivity|]);
    (split; [vm_compute; intros; try discriminate; tauto|]);
    (split; [reflexivity|]);
    (split; [vm_compute; intros; try discriminate; try reflexivity
            | intros E; try discriminate E; vm_compute; reflexivity]).
Qed.

Lemma preamble_of_corpus_witness :
  In parallel corpus /\ preamble_as_emitted parallel.
Proof.
  assert (H : In parallel corpus) by (vm_compute; tauto).
  split; [exact H | exact (preamble_of_corpus parallel H)].
Defined.

End Preamble.

(** ** gcd.c *)

Lemma gcd_while_3 w : Gcd.main_while 3 (48, 18) w = Ok ((6, 0), w).
Proof. reflexivity. Qed.

Lemma gcd_main_3 :
  Gcd.main 3 empty_world = Ok (0, emit empty_world [EvCall "main"; EvOut "6"]).
Proof. reflexivity. Qed.

(** The loop is Euclid's algorithm: on any non-negative 32-bit pair it
    ends with their greatest common divisor, given fuel above [b]. *)
Lemma gcd_while_euclid a b fuel w :
  0 <= a < 2 ^ 31 -> 0 <= b < 2 ^ 31 -> (Z.to_N b <= fuel)%N ->
  Gcd.main_while fuel (a, b) w = Ok ((Z.gcd a b, 0), w).
Proof.
  intros Ha Hb Hfuel. unfold Gcd.main_while.
  pose (I := fun (s : Z * Z) (w' : world) =>
               w' = w /\ 0 <= fst s < 2 ^ 31 /\ 0 <= snd s < 2 ^ 31 /\
               Z.gcd (fst s) (snd s) = Z.gcd a b).
  match goal with |- while_loop ?c ?d _ _ _ = _ =>
    assert (H : total (while_loop c d fuel (a, b)) w
                  (fun s w' => I s w' /\ snd s = 0))
  end.
  { apply (while_total _ _ (fun s => Z.to_N (snd s)) I).
    - intros [x y] w' (-> & Hx & Hy & Hg). simpl in Hx, Hy, Hg.
      apply wp_ret. destruct (Z.eqb_spec y 0) as [->|Hy0]; simpl.
      + unfold I. simpl. repeat split; lia.
      + apply wp_bind. unfold total, wp, rem32.
        destruct (Z.eqb_spec y 0) as [|_]; [contradiction|]. simpl.
        rewrite Z.rem_mod_nonneg by lia.
        pose proof (Z.mod_pos_bound x y ltac:(lia)) as Hm.
        rewrite wrap32_id by (unfold in_i32; lia).
        unfold I. simpl. repeat split; try lia.
        rewrite <- Hg. rewrite (Z.gcd_comm y), Z.gcd_mod by lia.
        apply Z.gcd_comm.
    - unfold I. simpl. repeat split; lia.
    - simpl. exact Hfuel. }
  apply total_ok in H as ([x y] & w' & -> & [(-> & Hx & _ & Hg) Hy]).
  simpl in Hx, Hg, Hy. subst y. rewrite Z.gcd_0_r, Z.abs_eq in Hg by lia.
  now subst x.
Qed.

Lemma gcd_main_mono : fuel_mono Gcd.main.
Proof.
  unfold Gcd.main.
  apply (mono_bind (fun _ => enter "main")); [apply mono_const|]; intros _.
  apply (mono_bind (fun n => Gcd.main_while n (48, 18))
                   (fun ab _ => let (a, b) := ab in (printf_d a;; ret 0)%C)).
  - apply mono_while.
  - intros [a b]. apply mono_const.
Qed.

(** C7: the loop of gcd.c on (48, 18) ends, within three rounds, with
    a = 6 and b = 0; the program then prints the single line 6 and returns
    0.  Any fuel of three or more gives this result. *)
Theorem gcd_prints_6 :
  forall fuel, (3 <= fuel)%N ->
    (forall w, Gcd.main_while fuel (48, 18) w = Ok ((6, 0), w)) /\
    (exists w, Gcd.main fuel empty_world = Ok (0, w) /\
               stdout (w_trace w) = ["6"]).
Proof.
  intros fuel Hfuel. split.
  - intros w. apply (mono_while _ _ (48, 18) 3%N fuel w _ Hfuel), gcd_while_3.
  - eexists. split.
    + apply (gcd_main_mono 3%N fuel _ _ Hfuel), gcd_main_3.
    + reflexivity.
Qed.

Lemma gcd_prints_6_witness :
  (3 <= 3)%N /\
  (forall w, Gcd.main_while 3 (48, 18) w = Ok ((6, 0), w)) /\
  (exists w, Gcd.main 3 empty_world = Ok (0, w) /\ stdout (w_trace w) = ["6"]).
Proof.
  assert (H : (3 <= 3)%N) by lia.
  split; [exact H | exact (gcd_prints_6 3%N H)].
Defined.

(** ** Memory *)

Lemma peek_poke m p v c :
  peek m p = Some c -> peek (poke m p v) p = Some (Some v).
Proof.
  unfold peek, poke. destruct (m !! p_blk p) as [b|] eqn:Eb; [|discriminate].
  intros Ho.
  rewrite list_lookup_insert_eq by (eapply lookup_lt_Some; exact Eb).
  apply list_lookup_insert_eq. eapply lookup_lt_Some; exact Ho.
Qed.

Lemma store_then_load p v w w' :
  store p v w = Ok (tt, w') ->
  load p w' = Ok (v, emit w' [EvLoad p]).
Proof.
  unfold store, load. destruct (peek (w_mem w) p) as [c|] eqn:E; [|discriminate].
  intros [= <-]. simpl. now rewrite (peek_poke _ _ _ _ E).
Qed.

(** ** function_arrays.c *)

Section FunctionArraysFacts.
Import SliceI32 FunctionArrays.

Lemma id_slice_run s w : id_slice s w = Ok (s, emit w [EvCall "id_slice"]).
Proof. reflexivity. Qed.

Lemma make3_run w :
  make3 w = Ok ({| value := [7; 8; 9] |}, emit w [EvCall "make3"]).
Proof. reflexivity. Qed.

Lemma function_arrays_run : main empty_world = Ok (0, function_arrays_final).
Proof. reflexivity. Qed.

(** C4: [id_slice s] returns [s] itself, pointer and length, and leaves
    the memory as it was; a store through the returned pointer is read
    back through the original one, and conversely.  In function_arrays,
    the element read through the returned slice at index 1 is the cell 1
    of the array holding 4, 5, 6, and the second output line is 5. *)
Theorem id_slice_aliases_argument :
  forall (s : slice_i32) (w : world),
    id_slice s w = Ok (s, emit w [EvCall "id_slice"]) /\
    (forall r w1 i v w2,
       id_slice s w = Ok (r, w1) ->
       (store (ptr_add (data r) i) v w1 = Ok (tt, w2) ->
        load (ptr_add (data s) i) w2
        = Ok (v, emit w2 [EvLoad (ptr_add (data s) i)])) /\
       (store (ptr_add (data s) i) v w1 = Ok (tt, w2) ->
        load (ptr_add (data r) i) w2
        = Ok (v, emit w2 [EvLoad (ptr_add (data r) i)])) /\
       data r = data s /\ len r = len s /\ w_mem w1 = w_mem w) /\
    main empty_world = Ok (0, function_arrays_final) /\
    omap load_of (w_trace function_arrays_final) = [Ptr 0 0; Ptr 1 1] /\
    peek (w_mem function_arrays_final) (Ptr 1 1) = Some (Some 5) /\
    stdout (w_trace function_arrays_final) !! 1%nat = Some "5".
Proof.
  intros s w. split; [apply id_slice_run|]. split.
  - intros r w1 i v w2. rewrite id_slice_run. intros [= <- <-].
    repeat split; apply store_then_load.
  - repeat split; reflexivity.
Qed.

Lemma id_slice_aliases_argument_witness :
  let s := {| data := Ptr 0 0; len := 3 |} in
  let w := {| w_mem := [[Some 4; Some 5; Some 6]]; w_trace := [] |} in
  let w1 := emit w [EvCall "id_slice"] in
  let w2 := {| w_mem := [[Some 4; Some 50; Some 6]];
               w_trace := [EvCall "id_slice"; EvStore (Ptr 0 1)] |} in
  id_slice s w = Ok (s, w1) /\
  store (ptr_add (data s) 1) 50 w1 = Ok (tt, w2) /\
  load (ptr_add (data s) 1) w2 = Ok (50, emit w2 [EvLoad (ptr_add (data s) 1)]).
Proof.
  intros s w w1 w2.
  assert (H1 : id_slice s w = Ok (s, w1)) by reflexivity.
  assert (H2 : store (ptr_add (data s) 1) 50 w1 = Ok (tt, w2)) by reflexivity.
  split; [exact H1|]. split; [exact H2|].
  exact (proj1 (proj1 (proj2 (id_slice_aliases_argument s w))
                  s w1 1%nat 50 w2 H1) H2).
Defined.

(** C5: [make3] returns the aggregate holding 7, 8, 9 on every call, from
    any memory; in function_arrays the caller copies the three elements
    into its own array (a block that is uninitialised before), reads 7
    as its first element and prints 7 first; a store into the memory, the
    caller's copy included, leaves the result of the next call as it was. *)
Theorem make3_returns_fresh_copy :
  forall (w : world) (p : ptr) (v : Z) (w' : world),
    store p v w = Ok (tt, w') ->
    make3 w = Ok ({| value := [7; 8; 9] |}, emit w [EvCall "make3"]) /\
    make3 w' = Ok ({| value := [7; 8; 9] |}, emit w' [EvCall "make3"]) /\
    main empty_world = Ok (0, function_arrays_final) /\
    filter (fun e => is_store e = true) (w_trace function_arrays_final)
    = [EvStore (Ptr 0 0); EvStore (Ptr 0 1); EvStore (Ptr 0 2)] /\
    w_mem function_arrays_final !! 0%nat = Some [Some 7; Some 8; Some 9] /\
    stdout (w_trace function_arrays_final) !! 0%nat = Some "7".
Proof.
  intros w p v w' _. repeat split; reflexivity.
Qed.

Lemma make3_returns_fresh_copy_witness :
  let w := {| w_mem := [[Some 7; Some 8; Some 9]]; w_trace := [] |} in
  let w' := {| w_mem := [[Some 7; Some 0; Some 9]];
               w_trace := [EvStore (Ptr 0 1)] |} in
  store (Ptr 0 1) 0 w = Ok (tt, w') /\
  make3 w' = Ok ({| value := [7; 8; 9] |}, emit w' [EvCall "make3"]).
Proof.
  intros w w'.
  assert (H : store (Ptr 0 1) 0 w = Ok (tt, w')) by reflexivity.
  split; [exact H|].
  exact (proj1 (proj2 (make3_returns_fresh_copy w (Ptr 0 1) 0 w' H))).
Defined.

End FunctionArraysFacts.

(** ** for_array.c *)

Section ForArrayFacts.
Import SliceI32.

Lemma for_array_run_3 : ForArray.main 3 empty_world = Ok (0, for_array_final).
Proof. reflexivity. Qed.

Lemma for_array_mono : fuel_mono ForArray.main.
Proof.
  unfold ForArray.main.
  apply (mono_bind (fun _ => enter "main")); [apply mono_const|]; intros _.
  apply (mono_bind (fun _ => alloc _)); [apply mono_const|]; intros nums.
  apply (mono_bind (fun n => for_loop _ _ _ n 0)); [apply mono_for|]; intros _.
  apply (mono_bind (fun _ => alloc _)); [apply mono_const|]; intros s_data.
  apply (mono_bind (fun _ => rdvar _ _)); [apply mono_const|]; intros it.
  apply (mono_bind (fun n => for_loop _ _ _ n 0)); [apply mono_for|]; intros _.
  apply mono_const.
Qed.

(** C6: for_array.c reads the cells 0, 1, 2 of the fixed array in that
    order, then reads the slice variable once into the temporary and reads
    the cells 0, 1, 2 behind the temporary's pointer, testing the
    temporary's length before each round; nothing is stored, both arrays
    end as they began, and the output is the lines 1 to 6 in order. *)
Theorem for_array_iterates_in_order :
  forall fuel, (3 <= fuel)%N ->
    ForArray.main fuel empty_world = Ok (0, for_array_final) /\
    omap load_of (w_trace for_array_final)
    = [Ptr 0 0; Ptr 0 1; Ptr 0 2; Ptr 1 0; Ptr 1 1; Ptr 1 2] /\
    filter (fun e => is_store e = true) (w_trace for_array_final) = [] /\
    filter (fun e => is_var_read "s" e = true) (w_trace for_array_final)
    = [EvVar "s"] /\
    w_mem for_array_final = [[Some 1; Some 2; Some 3]; [Some 4; Some 5; Some 6]] /\
    stdout (w_trace for_array_final) = ["1"; "2"; "3"; "4"; "5"; "6"].
Proof.
  intros fuel Hfuel. split.
  - apply (for_array_mono 3%N fuel _ _ Hfuel), for_array_run_3.
  - repeat split; reflexivity.
Qed.

Lemma for_array_iterates_in_order_witness :
  (3 <= 3)%N /\ ForArray.main 3 empty_world = Ok (0, for_array_final).
Proof.
  assert (H : (3 <= 3)%N) by lia.
  split; [exact H | exact (proj1 (for_array_iterates_in_order 3%N H))].
Defined.

End ForArrayFacts.

(** ** Task-parallel blocks: every schedule *)

Lemma all_schedules (P : config -> Prop) `{forall c, Decision (P c)} n c0 :
  forallb (holds_at P) (finals n c0) = true ->
  ~ In None (finals n c0) /\ forall cf, run c0 cf -> P cf.
Proof.
  intros Hall. rewrite forallb_forall in Hall.
  assert (Hn : ~ In None (finals n c0)).
  { intros HN. apply Hall in HN. discriminate. }
  split; [exact Hn|].
  intros cf Hrun. apply (run_finals _ _ Hrun n) in Hn.
  apply Hall in Hn. simpl in Hn. now apply bool_decide_eq_true in Hn.
Qed.

(** ** parallel.c *)

Lemma parallel_head_4 :
  Parallel.main_head 4 empty_world = Ok (tt, parallel_head_final).
Proof. reflexivity. Qed.

Lemma parallel_head_mono : fuel_mono Parallel.main_head.
Proof.
  unfold Parallel.main_head.
  apply (mono_bind (fun _ => enter "main")); [apply mono_const|]; intros _.
  apply (mono_bind (fun _ => alloc _)); [apply mono_const|]; intros nums.
  apply (mono_bind (fun n => for_loop _ _ _ n 0)); [apply mono_for|]; intros _.
  apply mono_const.
Qed.

Lemma parallel_finals fuel :
  (4 <= fuel)%N ->
  finals 8 (init (Parallel.main fuel))
  = finals 7 {| c_pool := [tl (code (Parallel.main fuel))];
                c_handles := [None; None];
                c_mem := w_mem parallel_head_final;
                c_trace := map (pair 0%nat) (w_trace parallel_head_final);
                c_status := Running |}.
Proof.
  intros Hfuel.
  apply (finals_head 7 (Parallel.main_head fuel) _ 2 parallel_head_final).
  apply (parallel_head_mono 4%N fuel _ _ Hfuel), parallel_head_4.
Qed.

(** C2: in every schedule of parallel.c the process ends by the return
    of [main] with status 0, within eight steps; the two task effects,
    the lines 100 and 200, both come before that return, in one order or
    the other; there are two task effects in all, and each of the two
    lines is in the output once.  Both orders occur. *)
Theorem parallel_block_joins_before_return :
  forall fuel, (4 <= fuel)%N ->
    let c0 := init (Parallel.main fuel) in
    ~ In None (finals 8 c0) /\
    (forall cf, run c0 cf -> parallel_joined cf) /\
    (exists cf, run c0 cf /\
       lines (c_trace cf) = ["1"; "2"; "3"; "4"; "100"; "200"]) /\
    (exists cf, run c0 cf /\
       lines (c_trace cf) = ["1"; "2"; "3"; "4"; "200"; "100"]).
Proof.
  intros fuel Hfuel c0. subst c0.
  pose proof (parallel_finals fuel Hfuel) as E.
  destruct (all_schedules parallel_joined 8 (init (Parallel.main fuel)))
    as [Hn Hall].
  { rewrite E. vm_compute. reflexivity. }
  split; [exact Hn|]. split; [exact Hall|]. split.
  - eexists. split.
    + apply (finals_run 8). rewrite E. vm_compute. left. reflexivity.
    + reflexivity.
  - eexists. split.
    + apply (finals_run 8). rewrite E. vm_compute.
      right. right. left. reflexivity.
    + reflexivity.
Qed.

Lemma parallel_block_joins_before_return_witness :
  (4 <= 4)%N /\
  forall cf, run (init (Parallel.main 4)) cf -> parallel_joined cf.
Proof.
  assert (H : (4 <= 4)%N) by lia.
  split; [exact H|].
  exact (proj1 (proj2 (parallel_block_joins_before_return 4%N H))).
Defined.

(** ** parallel_block_bench.c, parallel_block_seq_bench.c *)

Section Bench.
Import BenchWork.

(** The summing loop: [i] counts up to [n], [sum] is the sum below [i]. *)
Lemma work_loop fuel w :
  (1000000000 <= fuel)%N ->
  for_loop
    (fun '(i, sum) => ret (i <? 1000000000))
    (fun '(i, sum) => ret (i, wrap64 (sum + i)))
    (fun '(i, sum) => (wrap64 (i + 1), sum))
    fuel (0, 0) w
  = Ok ((1000000000, 499999999500000000), w).
Proof.
  intros Hfuel. unfold for_loop.
  pose (I := fun (s : Z * Z) (w' : world) =>
               w' = w /\ 0 <= fst s <= 1000000000 /\ 2 * snd s = fst s * (fst s - 1)).
  pose (Q := fun (s : Z * Z) (w' : world) => I s w' /\ fst s = 1000000000).
  pose (mu := fun s : Z * Z => Z.to_N (1000000000 - fst s)).
  match goal with |- while_loop ?c ?b _ _ _ = _ =>
    assert (H : total (while_loop c b fuel (0, 0)) w Q)
  end.
  { apply (while_total _ _ mu I Q).
    - intros [i sum] w1 (-> & Hi & Hsum). simpl in Hi, Hsum.
      unfold total, wp, bind, ret. cbn.
      destruct (Z.ltb_spec i 1000000000) as [Hlt|Hge].
      + unfold total, wp, bind, ret. cbn.
        rewrite !wrap64_id by (unfold in_i64; nia).
        unfold I, mu. simpl. repeat split; try lia; nia.
      + unfold Q, I. simpl. repeat split; lia.
    - unfold I. simpl. split; [reflexivity | lia].
    - unfold mu. simpl. lia. }
  apply total_ok in H as ([i sum] & w' & -> & [(-> & _ & Hsum) Hi]).
  simpl in Hsum, Hi. subst i. f_equal. f_equal. f_equal. lia.
Qed.

Lemma work_says name fuel :
  (1000000000 <= fuel)%N -> work name fuel = say name bench_line.
Proof.
  intros Hfuel. extensionality w. unfold work, say, bind, enter.
  rewrite log_emit. rewrite work_loop by exact Hfuel.
  unfold printf_d. rewrite log_emit, emit_emit. reflexivity.
Qed.

Lemma bench_seq_run fuel w :
  (1000000000 <= fuel)%N ->
  ParallelBlockSeqBench.main fuel w
  = Ok (0, emit w [EvCall "main";
                   EvCall "work1"; EvOut bench_line;
                   EvCall "work2"; EvOut bench_line;
                   EvCall "work3"; EvOut bench_line;
                   EvCall "work4"; EvOut bench_line]).
Proof.
  intros Hfuel. unfold ParallelBlockSeqBench.main, work1, work2, work3, work4.
  rewrite !work_says by exact Hfuel.
  unfold emit, say, emit; cbn. rewrite <- !app_assoc. reflexivity.
Qed.

(** C8: with fuel for the 1000000000 rounds of each loop, every schedule
    of the threaded bench ends by the return of [main] with status 0,
    within fourteen steps, having printed the line 499999999500000000 four
    times, all before that return; the sequential bench returns 0 having
    printed the same four lines; so the two outputs are permutations of
    each other. *)
Theorem bench_parallel_matches_sequential :
  forall fuel, (1000000000 <= fuel)%N ->
    let c0 := init (ParallelBlockBench.main fuel) in
    ~ In None (finals 14 c0) /\
    (exists cf, run c0 cf) /\
    (exists w, ParallelBlockSeqBench.main fuel empty_world = Ok (0, w) /\
       stdout (w_trace w) = [bench_line; bench_line; bench_line; bench_line] /\
       forall cf, run c0 cf ->
         bench_joined cf /\
         Permutation (lines (c_trace cf)) (stdout (w_trace w))).
Proof.
  intros fuel Hfuel c0. subst c0.
  assert (E : ParallelBlockBench.main fuel
              = ParallelBlockBench.main fuel) by reflexivity.
  unfold ParallelBlockBench.main at 2 in E.
  unfold ParallelBlockBench.__par_fns1, work1, work2, work3, work4 in E.
  rewrite !work_says in E by exact Hfuel. rewrite E. clear E.
  match goal with |- context [finals 14 ?c] =>
    destruct (all_schedules bench_joined 14 c) as [Hn Hall]
  end.
  { vm_compute. reflexivity. }
  split; [exact Hn|]. split.
  { eexists. apply (finals_run 14). vm_compute. left. reflexivity. }
  eexists. split; [apply bench_seq_run, Hfuel|]. split; [reflexivity|].
  intros cf Hrun. destruct (Hall cf Hrun) as (Hs & Hl & Hb & Ht & Hlines).
  split; [unfold bench_joined; auto|].
  rewrite Hlines. apply Permutation_refl.
Qed.

Lemma bench_parallel_matches_sequential_witness :
  (1000000000 <= 1000000000)%N /\
  ~ In None (finals 14 (init (ParallelBlockBench.main 1000000000))).
Proof.
  assert (H : (1000000000 <= 1000000000)%N) by lia.
  split; [exact H|].
  exact (proj1 (bench_parallel_matches_sequential 1000000000%N H)).
Defined.

End Bench.

(** ** No division by zero: gcd.c, prime.c, toyhash_parallel.c *)

Lemma wp_never {A} e (m : M A) :
  (forall w, wp (eq e) m w (fun _ _ => True)) -> never e m.
Proof.
  intros H w E. specialize (H w). unfold wp in H. rewrite E in H. now apply H.
Qed.

Lemma wp_rem32 a b w (Q : Z -> world -> Prop) :
  b <> 0 -> Q (wrap32 (Z.rem a b)) w -> wp (eq DivByZero) (rem32 a b) w Q.
Proof.
  intros Hb HQ. unfold wp, rem32.
  destruct (Z.eqb_spec b 0) as [->|_]; [contradiction | exact HQ].
Qed.

Lemma wp_rem64 a b w (Q : Z -> world -> Prop) :
  b <> 0 -> Q (wrap64 (Z.rem a b)) w -> wp (eq DivByZero) (rem64 a b) w Q.
Proof.
  intros Hb HQ. unfold wp, rem64.
  destruct (Z.eqb_spec b 0) as [->|_]; [contradiction | exact HQ].
Qed.

Lemma gcd_while_never fuel ab : never DivByZero (Gcd.main_while fuel ab).
Proof.
  apply wp_never. intros w. unfold Gcd.main_while.
  apply (while_safe _ _ (eq DivByZero) (fun _ _ => True) (fun _ _ => True));
    [discriminate| |exact Logic.I].
  intros [a b] w1 _. apply wp_ret.
  destruct (Z.eqb_spec b 0) as [->|Hb]; simpl; [exact Logic.I|].
  apply wp_bind. apply wp_rem32; [exact Hb|]. now apply wp_ret.
Qed.

Lemma gcd_never fuel : never DivByZero (Gcd.main fuel).
Proof.
  intros w. unfold Gcd.main, bind, enter. rewrite log_emit.
  pose proof (gcd_while_never fuel (48, 18) (emit w [EvCall "main"])) as H.
  destruct (Gcd.main_while fuel (48, 18) (emit w [EvCall "main"]))
    as [[[a b] w1]|e]; [discriminate|].
  intros [= ->]. now apply H.
Qed.

(** In prime.c the divisor [i] stays between 2 and 6. *)
Lemma prime_never fuel : never DivByZero (Prime.main fuel).
Proof.
  apply wp_never. intros w. unfold Prime.main.
  apply wp_bind, wp_log. cbn [Z.ltb Z.compare].
  apply wp_bind. apply wp_bind.
  eapply wp_mono;
    [|apply (while_safe _ _ (eq DivByZero)
               (fun s _ => 2 <= fst s <= 6) (fun _ _ => True));
      [discriminate| |simpl; lia]].
  - intros [i p] w1 _. apply wp_ret. unfold wp, bind, printf_b, printf_s.
    rewrite log_emit. exact Logic.I.
  - intros [i p] w1 Hi. simpl in Hi. apply wp_ret.
    rewrite wrap32_id by (unfold in_i32; nia).
    destruct (Z.leb_spec (i * i) 29) as [Hle|_]; [|exact Logic.I].
    apply wp_bind. apply wp_rem32; [lia|]. apply wp_ret. simpl.
    rewrite wrap32_id by (unfold in_i32; lia). nia.
Qed.

Lemma worker_never name seed fuel :
  never DivByZero (ToyhashParallel.worker name seed fuel).
Proof.
  apply wp_never. intros w. unfold ToyhashParallel.worker.
  apply wp_bind, wp_log. apply wp_bind. unfold for_loop.
  eapply wp_mono;
    [|apply (while_safe _ _ (eq DivByZero) (fun _ _ => True) (fun _ _ => True));
      [discriminate| |exact Logic.I]].
  - intros [r h] w1 _. exact Logic.I.
  - intros [r h] w1 _. apply wp_ret.
    destruct (r <? 2500); [|exact Logic.I].
    apply wp_bind. apply wp_bind.
    eapply wp_mono;
      [|apply (while_safe _ _ (eq DivByZero) (fun _ _ => True) (fun _ _ => True));
        [discriminate| |exact Logic.I]].
    + intros [i h'] w2 _. apply wp_ret. now apply wp_ret.
    + intros [i h'] w2 _. apply wp_ret.
      destruct (i <? 1000); [|exact Logic.I].
      apply wp_bind. apply wp_rem64; [discriminate|]. now apply wp_ret.
Qed.

(** The runs above do end: prime.c prints true, and each worker of
    toyhash_parallel.c prints a hash below the modulus. *)

Lemma prime_main_mono : fuel_mono Prime.main.
Proof.
  unfold Prime.main. cbn [Z.ltb Z.compare].
  apply (mono_bind (fun _ => enter "main")); [apply mono_const|]; intros _.
  apply (mono_bind
           (fun n => (let* x := while_loop _ _ n (2, true) in
                      let (_, is_prime) := x in ret is_prime)%C)
           (fun is_prime _ => (printf_b is_prime;; ret 0)%C)).
  - apply (mono_bind (fun n => while_loop _ _ n (2, true))
                     (fun x _ => let (_, is_prime) := x in ret is_prime)).
    + apply mono_while.
    + intros [i is_prime]. apply mono_const.
  - intros is_prime. apply mono_const.
Qed.

Lemma prime_29_is_prime fuel :
  (4 <= fuel)%N ->
  Prime.main fuel empty_world
  = Ok (0, emit empty_world [EvCall "main"; EvOut "true"]).
Proof.
  intros Hfuel. apply (prime_main_mono 4%N fuel _ _ Hfuel). reflexivity.
Qed.

Lemma worker_returns name seed fuel w :
  (2500 <= fuel)%N -> 0 <= seed < 2147483647 ->
  exists h, 0 <= h < 2147483647 /\
    ToyhashParallel.worker name seed fuel w
    = Ok (tt, emit w [EvCall name; EvOut (pretty h)]).
Proof.
  intros Hfuel Hseed. unfold ToyhashParallel.worker, bind, enter.
  rewrite log_emit. set (w1 := emit w [EvCall name]).
  pose (I := fun (s : Z * Z) (w' : world) =>
               w' = w1 /\ 0 <= fst s <= 2500 /\ 0 <= snd s < 2147483647).
  pose (J := fun (s : Z * Z) (w' : world) =>
               w' = w1 /\ 0 <= fst s <= 1000 /\ 0 <= snd s < 2147483647).
  unfold for_loop.
  match goal with |- context [while_loop ?c ?b fuel (0, seed) w1] =>
    assert (H : total (while_loop c b fuel (0, seed)) w1
                  (fun s w' => I s w' /\ fst s = 2500))
  end.
  { apply (while_total _ _ (fun s => Z.to_N (2500 - fst s)) I).
    - intros [r h] w' (-> & Hr & Hh). simpl in Hr, Hh.
      apply wp_ret. destruct (Z.ltb_spec r 2500) as [Hlt|Hge].
      + apply wp_bind. apply wp_bind.
        eapply wp_mono;
          [|apply (while_total _ _ (fun s => Z.to_N (1000 - fst s)) J
                     (fun s w' => J s w'))].
        * intros [i h'] w' (-> & Hi & Hh'). simpl in Hi, Hh'.
          apply wp_ret. apply wp_ret.
          rewrite wrap64_id by (unfold in_i64; lia).
          unfold I. simpl. repeat split; lia.
        * intros [i h'] w' (-> & Hi & Hh'). simpl in Hi, Hh'.
          apply wp_ret. destruct (Z.ltb_spec i 1000) as [Hlt'|Hge'].
          -- apply wp_bind. unfold total, wp, rem64. simpl.
             rewrite !(wrap64_id (h' * 31)) by (unfold in_i64; lia).
             rewrite !(wrap64_id (h' * 31 + i)) by (unfold in_i64; lia).
             rewrite !(wrap64_id (h' * 31 + i + r)) by (unfold in_i64; lia).
             pose proof (Z.rem_bound_pos (h' * 31 + i + r) 2147483647
                           ltac:(lia) ltac:(lia)) as Hrem.
             rewrite !(wrap64_id (Z.rem _ _)) by (unfold in_i64; lia).
             rewrite !(wrap64_id (i + 1)) by (unfold in_i64; lia).
             unfold J. simpl. repeat split; lia.
          -- unfold J. simpl. repeat split; lia.
        * unfold J. simpl. repeat split; lia.
        * simpl. lia.
      + unfold I. simpl. repeat split; lia.
    - unfold I. simpl. repeat split; lia.
    - simpl. lia. }
  apply total_ok in H as ([r h] & w' & -> & [(-> & _ & Hh) _]).
  simpl in Hh. exists h. split; [exact Hh|].
  unfold printf_d. rewrite log_emit. unfold w1. now rewrite emit_emit.
Qed.

Lemma step_never e c i c' :
  e <> Uninit -> config_never e c -> step_thread c i = Some c' ->
  config_never e c'.
Proof.
  intros He [Hpool Hst]. unfold step_thread.
  destruct (c_status c); try discriminate.
  destruct (c_pool c !! i) as [[|a rest]|] eqn:Ei; try discriminate.
  pose proof (Forall_lookup_1 _ _ _ _ Hpool Ei) as Hcode.
  apply Forall_cons in Hcode as [Ha Hrest].
  assert (Hpool' : Forall (Forall (action_never e)) (<[i:=rest]> (c_pool c)))
    by now apply Forall_insert.
  destruct a as [m|h m|h|code]; simpl in Ha.
  - destruct (m _) as [[[] w]|e'] eqn:Em; intros [= <-];
      (split; [exact Hpool'|simpl]); [discriminate|].
    intros [= ->]. now apply Ha in Em.
  - intros [= <-]. split; [simpl|discriminate].
    apply Forall_app. split; [exact Hpool'|].
    repeat constructor. exact Ha.
  - destruct (c_handles c !! h) as [[t|]|].
    + destruct (c_pool c !! t) as [[|]|]; try discriminate.
      intros [= <-]. split; [exact Hpool'|discriminate].
    + intros [= <-]. split; [exact Hpool'|simpl]. congruence.
    + intros [= <-]. split; [exact Hpool'|simpl]. congruence.
  - intros [= <-]. split; [exact Hpool'|discriminate].
Qed.

Lemma reach_never e c c' :
  e <> Uninit -> config_never e c -> reach c c' -> config_never e c'.
Proof.
  intros He Hc Hreach. induction Hreach as [c|c c' c'' Hin _ IH]; [exact Hc|].
  apply IH. unfold succs in Hin.
  apply list_elem_of_In, list_elem_of_omap in Hin as (i & _ & Hstep).
  exact (step_never e c i c' He Hc Hstep).
Qed.

Lemma toyhash_init_never fuel :
  config_never DivByZero (init (ToyhashParallel.main fuel)).
Proof.
  assert (Hrun : forall i,
    never DivByZero (__1im_par_runner (ToyhashParallel.__par_fns1 fuel) i)).
  { intros i w. unfold __1im_par_runner, bind, enter. rewrite log_emit.
    destruct i as [|[|[|[|i]]]]; simpl;
      try apply worker_never; discriminate. }
  split; [|discriminate]. simpl.
  repeat constructor; try exact (Hrun _).
  intros w. discriminate.
Qed.

(** C10: with the remainder guarded by a test of its divisor, no run of
    gcd.c, of prime.c or of a worker of toyhash_parallel.c stops on a
    division by zero, whatever the fuel and the initial world, and no
    schedule of toyhash_parallel.c reaches a state faulted by one. *)
Theorem modulo_divisor_never_zero :
  forall fuel,
    (forall ab, never DivByZero (Gcd.main_while fuel ab)) /\
    never DivByZero (Gcd.main fuel) /\
    never DivByZero (Prime.main fuel) /\
    never DivByZero (ToyhashParallel.worker1 fuel) /\
    never DivByZero (ToyhashParallel.worker2 fuel) /\
    never DivByZero (ToyhashParallel.worker3 fuel) /\
    never DivByZero (ToyhashParallel.worker4 fuel) /\
    (forall c, reach (init (ToyhashParallel.main fuel)) c ->
       c_status c <> Faulted DivByZero).
Proof.
  intros fuel.
  split; [intros ab; apply gcd_while_never|].
  split; [apply gcd_never|]. split; [apply prime_never|].
  do 4 (split; [apply worker_never|]).
  intros c Hreach.
  apply (reach_never DivByZero _ c) in Hreach as [_ H];
    [exact H | discriminate | apply toyhash_init_never].
Qed.

Lemma modulo_divisor_never_zero_witness :
  let c0 := init (ToyhashParallel.main 2500) in
  reach c0 c0 /\ c_status c0 <> Faulted DivByZero.
Proof.
  intros c0.
  assert (H : reach c0 c0) by apply reach_here.
  split; [exact H|].
  exact (proj2 (proj2 (proj2 (proj2 (proj2 (proj2 (proj2
           (modulo_divisor_never_zero 2500%N))))))) c0 H).
Defined.

(** * Further properties of the corpus *)

Lemma bind_ok {A B} (m : M A) (k : A -> M B) w a w' :
  m w = Ok (a, w') -> bind m k w = k a w'.
Proof. unfold bind. now intros ->. Qed.

Lemma printf_d_ok v w : printf_d v w = Ok (tt, emit w [EvOut (pretty v)]).
Proof. reflexivity. Qed.

(** ** gcd.c: the loop on any pair *)

(** The loop of gcd.c, started on any two 32-bit values other than the
    least one, ends within |b| rounds with [b = 0] and with [a] equal, up
    to its sign, to the greatest common divisor of the two values; it
    touches neither the memory nor the output. *)
Theorem gcd_while_any_pair :
  forall a b fuel w,
    - 2 ^ 31 < a < 2 ^ 31 -> - 2 ^ 31 < b < 2 ^ 31 ->
    (Z.to_N (Z.abs b) <= fuel)%N ->
    exists g, Gcd.main_while fuel (a, b) w = Ok ((g, 0), w) /\
              Z.abs g = Z.gcd a b.
Proof.
  intros a b fuel w Ha Hb Hfuel. unfold Gcd.main_while.
  pose (I := fun (s : Z * Z) (w' : world) =>
               w' = w /\ - 2 ^ 31 < fst s < 2 ^ 31 /\ - 2 ^ 31 < snd s < 2 ^ 31 /\
               Z.gcd (fst s) (snd s) = Z.gcd a b).
  match goal with |- context [while_loop ?c ?d _ _ _] =>
    assert (H : total (while_loop c d fuel (a, b)) w
                  (fun s w' => I s w' /\ snd s = 0))
  end.
  { apply (while_total _ _ (fun s => Z.to_N (Z.abs (snd s))) I).
    - intros [x y] w' (-> & Hx & Hy & Hg). simpl in Hx, Hy, Hg.
      apply wp_ret. destruct (Z.eqb_spec y 0) as [->|Hy0]; simpl.
      + unfold I. simpl. repeat split; lia.
      + apply wp_bind. unfold total, wp, rem32.
        destruct (Z.eqb_spec y 0) as [|_]; [contradiction|]. simpl.
        pose proof (Z.rem_bound_abs x y Hy0) as Hr.
        rewrite wrap32_id by (unfold in_i32; lia).
        unfold I. simpl. repeat split; try lia.
        rewrite <- Hg, (Z.gcd_comm y), Z.gcd_rem by exact Hy0.
        apply Z.gcd_comm.
    - unfold I. simpl. repeat split; lia.
    - simpl. exact Hfuel. }
  apply total_ok in H as ([x y] & w' & -> & [(-> & _ & _ & Hg) Hy]).
  simpl in Hg, Hy. subst y. exists x. split; [reflexivity|].
  now rewrite Z.gcd_0_r in Hg.
Qed.

Lemma gcd_while_any_pair_witness :
  exists g, Gcd.main_while 18 (-48, 18) empty_world = Ok ((g, 0), empty_world) /\
            Z.abs g = Z.gcd (-48) 18.
Proof.
  apply (gcd_while_any_pair (-48) 18 18%N empty_world); [lia | lia | lia].
Defined.

(** ** prime.c: the test on any value *)

Lemma prime_main_test fuel :
  Prime.main fuel
  = (enter "main";; let* p := prime_test 29 fuel in printf_b p;; ret 0)%C.
Proof. reflexivity. Qed.

Lemma no_small_divisor_prime n : 2 <= n -> (no_small_divisor n <-> Z.prime n).
Proof.
  intros Hn. unfold no_small_divisor, Z.prime. split.
  - intros H. split; [lia|]. intros k Hk [q Hq].
    assert (Hq2 : 2 <= q) by nia.
    destruct (Z_le_gt_dec (k * k) n) as [Hle|Hgt].
    + apply (H k); [lia | exact Hle|]. subst n. apply Z.mod_mul. lia.
    + apply (H q); [exact Hq2 | nia |]. subst n.
      rewrite Z.mul_comm. apply Z.mod_mul. lia.
  - intros [_ H] d Hd Hdd Hmod. apply (H d); [nia|].
    apply Z.mod_divide; [lia | exact Hmod].
Qed.

(** The test of prime.c leaves [is_prime] false on every [n] below 2; on
    [n] from 2 up to 2147395599 (the square of 46340, where [i * i] would
    leave 32 bits, excluded) it ends within 46340 rounds and leaves
    [is_prime] true exactly when [n] is a prime number.  The world is left
    as it was. *)
Theorem prime_test_decides_primality :
  forall n fuel w,
    n < 2147395600 -> (46340 <= fuel)%N ->
    exists p, prime_test n fuel w = Ok (p, w) /\
              (p = true <-> Z.prime n).
Proof.
  intros n fuel w Hn Hfuel. unfold prime_test.
  destruct (Z.ltb_spec n 2) as [Hlt|Hge].
  { exists false. split; [reflexivity|]. split; [discriminate|].
    intros [H _]. lia. }
  pose (I := fun (s : Z * bool) (w' : world) =>
               w' = w /\ 2 <= fst s <= 46340 /\ (fst s - 1) * (fst s - 1) <= n /\
               (snd s = true <-> forall d, 2 <= d < fst s -> n mod d <> 0)).
  match goal with |- context [while_loop ?c ?d _ _] =>
    assert (H : total (while_loop c d fuel (2, true)) w
                  (fun s w' => I s w' /\ n < fst s * fst s))
  end.
  { apply (while_total _ _ (fun s => Z.to_N (46340 - fst s)) I).
    - intros [i p] w' (-> & Hi & Hsq & Hp). simpl in Hi, Hsq, Hp.
      apply wp_ret. rewrite wrap32_id by (unfold in_i32; nia).
      destruct (Z.leb_spec (i * i) n) as [Hle|Hgt].
      + apply wp_bind. unfold total, wp, rem32.
        destruct (Z.eqb_spec i 0) as [|_]; [lia|]. simpl.
        rewrite Z.rem_mod_nonneg by lia.
        pose proof (Z.mod_pos_bound n i ltac:(lia)) as Hm.
        rewrite wrap32_id by (unfold in_i32; lia).
        rewrite wrap32_id by (unfold in_i32; lia).
        assert (Hi' : i < 46340) by nia.
        unfold I. simpl. split; [|lia].
        split; [reflexivity|]. split; [lia|].
        split; [replace (i + 1 - 1) with i by lia; exact Hle|].
        destruct (Z.eqb_spec (n mod i) 0) as [E|E].
        * split; [discriminate|]. intros H. exfalso. apply (H i); [lia | exact E].
        * rewrite Hp. split.
          -- intros H d Hd. destruct (Z.eq_dec d i) as [->|]; [exact E|].
             apply H. lia.
          -- intros H d Hd. apply H. lia.
      + unfold I. simpl. repeat split; try lia; apply Hp.
    - unfold I. simpl. repeat split; lia.
    - simpl. lia. }
  apply total_ok in H as ([i p] & w' & E & [(-> & Hi & Hsq & Hp) Hex]).
  simpl in Hi, Hsq, Hp, Hex. exists p. rewrite (bind_ok _ _ _ _ _ E).
  split; [reflexivity|].
  rewrite <- (no_small_divisor_prime n Hge), Hp. unfold no_small_divisor. split.
  - intros H d Hd Hdd. apply H. nia.
  - intros H d Hd. apply H; [lia | nia].
Qed.

Lemma prime_test_decides_primality_witness :
  exists p, prime_test 91 46340 empty_world = Ok (p, empty_world) /\
            (p = true <-> Z.prime 91).
Proof.
  apply (prime_test_decides_primality 91 46340%N empty_world); [lia | lia].
Defined.

(** ** toyhash_parallel.c: what a worker prints *)

Lemma toyhash_inner r h0 fuel w :
  0 <= r <= 2500 -> 0 <= h0 < 2147483647 -> (1000 <= fuel)%N ->
  exists h, 0 <= h < 2147483647 /\
    h = snd (N.iter 1000 (toyhash_mix r) (0, h0)) /\
    while_loop
      (fun '(i, h) => ret (i <? 1000))
      (fun '(i, h) =>
         let* h := rem64 (wrap64 (wrap64 (wrap64 (h * 31) + i) + r)) 2147483647 in
         let i := wrap64 (i + 1) in
         ret (i, h))
      fuel (0, h0) w
    = Ok ((1000, h), w).
Proof.
  intros Hr Hh0 Hfuel.
  pose (J := fun (s : Z * Z) (w' : world) =>
               w' = w /\ 0 <= fst s <= 1000 /\ 0 <= snd s < 2147483647 /\
               s = N.iter (Z.to_N (fst s)) (toyhash_mix r) (0, h0)).
  match goal with |- context [while_loop ?c ?d _ _ _] =>
    assert (H : total (while_loop c d fuel (0, h0)) w
                  (fun s w' => J s w' /\ fst s = 1000))
  end.
  { apply (while_total _ _ (fun s => Z.to_N (1000 - fst s)) J).
    - intros [i h] w' (-> & Hi & Hh & Hit). cbn [fst snd] in Hi, Hh, Hit.
      apply wp_ret. destruct (Z.ltb_spec i 1000) as [Hlt|Hge].
      + apply wp_bind. unfold total, wp, rem64.
        change (2147483647 =? 0) with false. cbv iota.
        rewrite (wrap64_id (h * 31)) by (unfold in_i64; lia).
        rewrite (wrap64_id (h * 31 + i)) by (unfold in_i64; lia).
        rewrite (wrap64_id (h * 31 + i + r)) by (unfold in_i64; lia).
        rewrite Z.rem_mod_nonneg by lia.
        pose proof (Z.mod_pos_bound (h * 31 + i + r) 2147483647 ltac:(lia)) as Hm.
        rewrite (wrap64_id (_ mod _)) by (unfold in_i64; lia).
        rewrite (wrap64_id (i + 1)) by (unfold in_i64; lia).
        unfold ret, J. cbn [fst snd]. split; [|lia].
        split; [reflexivity|]. split; [lia|]. split; [lia|].
        replace (Z.to_N (i + 1)) with (N.succ (Z.to_N i)) by lia.
        rewrite N.iter_succ, <- Hit. reflexivity.
      + unfold J. cbn [fst snd]. split; [|lia].
        split; [reflexivity|]. split; [lia|]. split; [lia|exact Hit].
    - unfold J. cbn [fst snd]. split; [reflexivity|].
      split; [lia|]. split; [lia|reflexivity].
    - cbn [fst]. lia. }
  apply total_ok in H as ([i h] & w' & E & [(-> & _ & Hh & Hit) Hi]).
  cbn [fst snd] in Hh, Hit, Hi. subst i. exists h. split; [exact Hh|].
  split; [|exact E].
  change (Z.to_N 1000) with 1000%N in Hit. rewrite <- Hit. reflexivity.
Qed.

Lemma toyhash_outer seed fuel w :
  0 <= seed < 2147483647 -> (2500 <= fuel)%N ->
  for_loop
    (fun '(r, h) => ret (r <? 2500))
    (fun '(r, h) =>
       let i := 0 in
       let* (i, h) :=
         while_loop
           (fun '(i, h) => ret (i <? 1000))
           (fun '(i, h) =>
              let* h := rem64 (wrap64 (wrap64 (wrap64 (h * 31) + i) + r))
                          2147483647 in
              let i := wrap64 (i + 1) in
              ret (i, h))
           fuel (i, h) in
       ret (r, h))
    (fun '(r, h) => (wrap64 (r + 1), h))
    fuel (0, seed) w
  = Ok ((2500, toyhash seed), w) /\
  0 <= toyhash seed < 2147483647.
Proof.
  intros Hseed Hfuel. unfold for_loop.
  pose (I := fun (s : Z * Z) (w' : world) =>
               w' = w /\ 0 <= fst s <= 2500 /\ 0 <= snd s < 2147483647 /\
               s = N.iter (Z.to_N (fst s)) toyhash_round (0, seed)).
  match goal with |- context [while_loop ?c ?d _ _ _] =>
    assert (H : total (while_loop c d fuel (0, seed)) w
                  (fun s w' => I s w' /\ fst s = 2500))
  end.
  { apply (while_total _ _ (fun s => Z.to_N (2500 - fst s)) I).
    - intros [r h] w' (-> & Hr & Hh & Hit). cbn [fst snd] in Hr, Hh, Hit.
      apply wp_ret. destruct (Z.ltb_spec r 2500) as [Hlt|Hge].
      + destruct (toyhash_inner r h fuel w) as (h' & Hh' & Eh' & E);
          [lia | lia | lia |].
        unfold total, wp.
        rewrite (bind_ok _ _ _ _ _ (bind_ok _ _ _ _ _ E)).
        unfold ret. rewrite (wrap64_id (r + 1)) by (unfold in_i64; lia).
        unfold I. cbn [fst snd]. split; [|lia].
        split; [reflexivity|]. split; [lia|]. split; [lia|].
        replace (Z.to_N (r + 1)) with (N.succ (Z.to_N r)) by lia.
        rewrite N.iter_succ, <- Hit. unfold toyhash_round. cbn [fst snd].
        rewrite Eh'. reflexivity.
      + unfold I. cbn [fst snd]. split; [|lia].
        split; [reflexivity|]. split; [lia|]. split; [lia|exact Hit].
    - unfold I. cbn [fst snd]. split; [reflexivity|].
      split; [lia|]. split; [lia|reflexivity].
    - cbn [fst]. lia. }
  apply total_ok in H as ([r h] & w' & E & [(-> & _ & Hh & Hit) Hr]).
  cbn [fst snd] in Hh, Hit, Hr. subst r.
  change (Z.to_N 2500) with 2500%N in Hit.
  assert (Eh : h = toyhash seed)
    by (unfold toyhash; rewrite <- Hit; reflexivity).
  subst h. split; [exact E | exact Hh].
Qed.

Lemma worker_run name seed fuel w :
  0 <= seed < 2147483647 -> (2500 <= fuel)%N ->
  ToyhashParallel.worker name seed fuel w
  = Ok (tt, emit w [EvCall name; EvOut (pretty (toyhash seed))]).
Proof.
  intros Hseed Hfuel. unfold ToyhashParallel.worker.
  rewrite (bind_ok (enter name) _ w tt (emit w [EvCall name]) (log_emit _ _)).
  rewrite (bind_ok _ _ _ _ _ (proj1 (toyhash_outer seed fuel _ Hseed Hfuel))).
  rewrite printf_d_ok. now rewrite emit_emit.
Qed.

(** A worker of toyhash_parallel.c seeded below the modulus, with fuel for
    its 2500 outer rounds, prints one line, the hash [toyhash seed], and
    nothing else; no intermediate value leaves 64 bits, no remainder is
    taken by zero, and the hash is non-negative and below 2147483647. *)
Theorem worker_prints_toyhash :
  forall name seed fuel w,
    0 <= seed < 2147483647 -> (2500 <= fuel)%N ->
    ToyhashParallel.worker name seed fuel w
    = Ok (tt, emit w [EvCall name; EvOut (pretty (toyhash seed))]) /\
    0 <= toyhash seed < 2147483647.
Proof.
  intros name seed fuel w Hseed Hfuel. split.
  - now apply worker_run.
  - exact (proj2 (toyhash_outer seed fuel w Hseed Hfuel)).
Qed.

Lemma worker_prints_toyhash_witness :
  0 <= 7 < 2147483647 /\ (2500 <= 2500)%N /\
  ToyhashParallel.worker "worker1" 7 2500 empty_world
  = Ok (tt, emit empty_world [EvCall "worker1"; EvOut (pretty (toyhash 7))]).
Proof.
  assert (H1 : 0 <= 7 < 2147483647) by lia.
  assert (H2 : (2500 <= 2500)%N) by lia.
  split; [exact H1|]. split; [exact H2|].
  exact (proj1 (worker_prints_toyhash "worker1" 7 2500%N empty_world H1 H2)).
Defined.

(** ** Schedules are finite *)

Lemma sum_list_with_insert {A} (f : A -> nat) (l : list A) i x y :
  l !! i = Some x ->
  (sum_list_with f (<[i:=y]> l) + f x = sum_list_with f l + f y)%nat.
Proof.
  revert i. induction l as [|a l IH]; intros [|i] H; simpl in *; try discriminate.
  - injection H as ->. lia.
  - specialize (IH i H). lia.
Qed.

Lemma step_thread_weight c i c' :
  step_thread c i = Some c' -> (steps_left c' < steps_left c)%nat.
Proof.
  unfold step_thread, steps_left.
  destruct (c_status c); try discriminate.
  destruct (c_pool c !! i) as [[|a rest]|] eqn:Ei; try discriminate.
  pose proof (sum_list_with_insert (sum_list_with weight) _ i _ rest Ei) as Hs.
  destruct a as [m|h m|h|code]; simpl in Hs.
  - destruct (m _) as [[[] w]|e]; intros [= <-]; simpl; lia.
  - intros [= <-]. simpl. rewrite sum_list_with_app. simpl. lia.
  - destruct (c_handles c !! h) as [[t|]|].
    + destruct (c_pool c !! t) as [[|]|]; try discriminate.
      intros [= <-]. simpl. lia.
    + intros [= <-]. simpl. lia.
    + intros [= <-]. simpl. lia.
  - intros [= <-]. simpl. lia.
Qed.

Lemma succs_weight c c' :
  In c' (succs c) -> (steps_left c' < steps_left c)%nat.
Proof.
  unfold succs. intros H.
  apply list_elem_of_In, list_elem_of_omap in H as (i & _ & Hstep).
  exact (step_thread_weight c i c' Hstep).
Qed.

Lemma finals_bounded n c :
  (steps_left c <= n)%nat -> ~ In None (finals n c).
Proof.
  revert c. induction n as [|n IH]; intros c Hc.
  - destruct (succs c) as [|c' cs] eqn:E.
    + rewrite finals_stuck by exact E. intros [[=]|[]].
    + assert (Hin : In c' (succs c)) by (rewrite E; now left).
      apply succs_weight in Hin. lia.
  - destruct (succs c) as [|c' cs] eqn:E.
    + rewrite finals_stuck by exact E. intros [[=]|[]].
    + rewrite finals_S by now rewrite E.
      intros H. apply in_flat_map in H as (c1 & Hin & HN).
      apply (IH c1); [|exact HN].
      apply succs_weight in Hin. lia.
Qed.

Lemma finals_nonempty n c : finals n c <> [].
Proof.
  revert c. induction n as [|n IH]; intros c.
  - simpl. destruct (succs c); discriminate.
  - destruct (succs c) as [|c' cs] eqn:E.
    + rewrite finals_stuck by exact E. discriminate.
    + rewrite finals_S by now rewrite E. rewrite E. simpl.
      intros H. apply app_eq_nil in H as [H _]. now apply IH in H.
Qed.

Lemma run_exists c : exists cf, run c cf.
Proof.
  pose proof (finals_bounded (steps_left c) c (Nat.le_refl _)) as Hn.
  pose proof (finals_nonempty (steps_left c) c) as Hne.
  destruct (finals (steps_left c) c) as [|[cf|] l] eqn:E.
  - contradiction.
  - exists cf. apply (finals_run (steps_left c)). rewrite E. now left.
  - exfalso. apply Hn. now left.
Qed.

(** ** The task-parallel block in general *)

Section ParBlock.
Context (evs : list (list event)) (code : Z) (mem : list block)
        (pre : list (nat * event)).
Local Abbreviation n := (length evs).
Local Abbreviation fns := (emits <$> evs).

Lemma par_block_create p :
  (p < n)%nat ->
  par_block fns code !! p = Some (ACreate p (__1im_par_runner fns p)).
Proof.
  intros Hp. unfold par_block. rewrite length_fmap.
  rewrite lookup_app_l by (rewrite length_fmap, length_seq; lia).
  rewrite list_lookup_fmap, lookup_seq_lt by lia. reflexivity.
Qed.

Lemma par_block_join p :
  (n <= p < 2 * n)%nat -> par_block fns code !! p = Some (AJoin (p - n)).
Proof.
  intros Hp. unfold par_block. rewrite length_fmap.
  rewrite lookup_app_r by (rewrite length_fmap, length_seq; lia).
  rewrite length_fmap, length_seq.
  rewrite lookup_app_l by (rewrite length_fmap, length_seq; lia).
  rewrite list_lookup_fmap, lookup_seq_lt by lia. reflexivity.
Qed.

Lemma par_block_return :
  par_block fns code !! (2 * n)%nat = Some (AReturn code).
Proof.
  unfold par_block. rewrite length_fmap.
  rewrite lookup_app_r by (rewrite length_fmap, length_seq; lia).
  rewrite length_fmap, length_seq.
  rewrite lookup_app_r by (rewrite length_fmap, length_seq; lia).
  rewrite length_fmap, length_seq.
  replace (2 * n - n - n)%nat with 0%nat by lia. reflexivity.
Qed.

Lemma par_block_end : drop (S (2 * n)) (par_block fns code) = [].
Proof.
  apply drop_ge. unfold par_block.
  rewrite !length_app, !length_fmap, !length_seq. simpl. lia.
Qed.

Lemma handles_lookup m j :
  (j < m)%nat -> block_handles n m !! j = Some (Some (S j)).
Proof.
  intros Hj. unfold block_handles.
  rewrite lookup_app_l by (rewrite length_fmap, length_seq; lia).
  rewrite list_lookup_fmap, lookup_seq_lt by lia. reflexivity.
Qed.

Lemma handles_insert p :
  (p < n)%nat ->
  <[p := Some (S p)]> (block_handles n p) = block_handles n (S p).
Proof.
  intros Hp. unfold block_handles.
  rewrite insert_app_r_alt by (rewrite length_fmap, length_seq; lia).
  rewrite length_fmap, length_seq, Nat.sub_diag.
  replace (n - p)%nat with (S (n - S p)) by lia.
  rewrite seq_S, fmap_app, <- app_assoc. reflexivity.
Qed.

Lemma task_code_lookup fin m i :
  (i < m)%nat ->
  (task_code fns fin <$> seq 0 m) !! i = Some (task_code fns fin i).
Proof.
  intros Hi. rewrite list_lookup_fmap, lookup_seq_lt by lia. reflexivity.
Qed.

Lemma task_code_finish fin m i :
  (i < m)%nat ->
  <[i := []]> (task_code fns fin <$> seq 0 m)
  = task_code fns (fin ++ [i]) <$> seq 0 m.
Proof.
  intros Hi. apply list_eq. intros k.
  destruct (decide (k < m)%nat) as [Hk|Hk].
  - rewrite task_code_lookup by exact Hk.
    destruct (decide (i = k)) as [->|Hne].
    + rewrite list_lookup_insert_eq by (rewrite length_fmap, length_seq; lia).
      unfold task_code. rewrite bool_decide_eq_true_2; [reflexivity|].
      apply elem_of_app. right. now apply list_elem_of_singleton.
    + rewrite list_lookup_insert_ne by exact Hne.
      rewrite task_code_lookup by exact Hk. f_equal. unfold task_code.
      apply (f_equal (fun b : bool => if b then _ else _)).
      apply bool_decide_ext. rewrite elem_of_app, list_elem_of_singleton.
      split; [tauto|]. intros [H|H]; [exact H|congruence].
  - rewrite !lookup_ge_None_2; [reflexivity| |];
      rewrite ?length_insert, length_fmap, length_seq; lia.
Qed.

Lemma task_code_new fin p :
  (forall i, i ∈ fin -> (i < p)%nat) ->
  (task_code fns fin <$> seq 0 p) ++ [[ADo (__1im_par_runner fns p)]]
  = task_code fns fin <$> seq 0 (S p).
Proof.
  intros Hfin. rewrite seq_S, fmap_app. simpl. f_equal. f_equal.
  unfold task_code. rewrite bool_decide_eq_false_2; [reflexivity|].
  intros H. apply Hfin in H. lia.
Qed.

Lemma runner_emits i :
  (i < n)%nat ->
  __1im_par_runner fns i {| w_mem := mem; w_trace := [] |}
  = Ok (tt, {| w_mem := mem;
               w_trace := EvCall "__1im_par_runner" :: default [] (evs !! i) |}).
Proof.
  intros Hi. unfold __1im_par_runner, bind, enter. rewrite log_emit.
  rewrite list_lookup_fmap.
  destruct (lookup_lt_is_Some_2 evs i Hi) as [t Ht]. rewrite Ht. reflexivity.
Qed.

(** The steps of [main] *)

Lemma step_create p fin :
  (p < n)%nat -> (forall i, i ∈ fin -> (i < p)%nat) ->
  step_thread (block_state evs code mem pre p fin) 0
  = Some (block_state evs code mem pre (S p) fin).
Proof.
  intros Hp Hfin. unfold step_thread, block_state.
  replace (Nat.min p n) with p by lia.
  replace (Nat.min (S p) n) with (S p) by lia.
  cbn [c_status c_pool c_handles c_mem c_trace].
  change ((?x :: ?l) !! 0%nat) with (Some x).
  rewrite (drop_S _ _ _ (par_block_create p Hp)). cbv beta iota.
  change (<[0%nat := ?y]> (?x :: ?l)) with (y :: l).
  cbn [length]. rewrite length_fmap, length_seq, handles_insert by exact Hp.
  rewrite <- app_comm_cons, task_code_new by exact Hfin. reflexivity.
Qed.

Lemma step_join p fin :
  (n <= p < 2 * n)%nat ->
  step_thread (block_state evs code mem pre p fin) 0
  = if bool_decide ((p - n)%nat ∈ fin)
    then Some (block_state evs code mem pre (S p) fin) else None.
Proof.
  intros Hp. unfold step_thread, block_state.
  replace (Nat.min p n) with n by lia.
  replace (Nat.min (S p) n) with n by lia.
  cbn [c_status c_pool c_handles c_mem c_trace].
  change ((?x :: ?l) !! 0%nat) with (Some x).
  rewrite (drop_S _ _ _ (par_block_join p Hp)). cbv beta iota.
  rewrite handles_lookup by lia. cbv beta iota.
  change ((?x :: ?l) !! S ?i) with (l !! i).
  rewrite task_code_lookup by lia. unfold task_code at 1.
  destruct (bool_decide ((p - n)%nat ∈ fin)); reflexivity.
Qed.

Lemma step_return fin :
  step_thread (block_state evs code mem pre (2 * n) fin) 0
  = Some (block_final evs code mem pre fin).
Proof.
  unfold step_thread, block_state, block_final.
  cbn [c_status c_pool c_handles c_mem c_trace].
  change ((?x :: ?l) !! 0%nat) with (Some x).
  rewrite (drop_S _ _ _ par_block_return), par_block_end.
  replace (Nat.min (2 * n) n) with n by lia. reflexivity.
Qed.

(** The step of a task *)

Lemma step_task p fin i :
  (p <= 2 * n)%nat ->
  step_thread (block_state evs code mem pre p fin) (S i)
  = if bool_decide ((i < Nat.min p n)%nat /\ i ∉ fin)
    then Some (block_state evs code mem pre p (fin ++ [i])) else None.
Proof.
  intros Hp. unfold step_thread, block_state.
  cbn [c_status c_pool c_handles c_mem c_trace].
  change ((?x :: ?l) !! S i) with (l !! i).
  destruct (decide (i < Nat.min p n)%nat) as [Hi|Hi].
  - rewrite task_code_lookup by exact Hi. unfold task_code at 1.
    destruct (decide (i ∈ fin)) as [Hin|Hin].
    + rewrite bool_decide_eq_true_2 by exact Hin.
      rewrite bool_decide_eq_false_2 by tauto. reflexivity.
    + rewrite bool_decide_eq_false_2 by exact Hin.
      rewrite bool_decide_eq_true_2 by tauto.
      rewrite runner_emits by lia.
      cbn [w_mem w_trace].
      change (<[S i := ?y]> (?x :: ?l)) with (x :: <[i := y]> l).
      rewrite task_code_finish by exact Hi.
      rewrite map_app, concat_app. simpl. rewrite app_nil_r, app_assoc.
      reflexivity.
  - rewrite lookup_ge_None_2 by (rewrite length_fmap, length_seq; lia).
    rewrite bool_decide_eq_false_2 by tauto. reflexivity.
Qed.

End ParBlock.

Section ParBlockRuns.
Context (evs : list (list event)) (code : Z) (mem : list block)
        (pre : list (nat * event)).
Local Abbreviation n := (length evs).
Local Abbreviation st := (block_state evs code mem pre).
Local Abbreviation final := (block_final evs code mem pre).

Lemma in_succs c c' :
  In c' (succs c) <->
  exists i, (i < length (c_pool c))%nat /\ step_thread c i = Some c'.
Proof.
  unfold succs. rewrite <- list_elem_of_In, list_elem_of_omap.
  split; intros (i & Hi & Hs); exists i; (split; [|exact Hs]).
  - apply elem_of_seq in Hi. lia.
  - apply elem_of_seq. lia.
Qed.

Lemma exited_stuck c : c_status c <> Running -> succs c = [].
Proof.
  intros Hc. destruct (succs c) as [|c' cs] eqn:E; [reflexivity|].
  assert (Hin : In c' (succs c)) by (rewrite E; now left).
  apply in_succs in Hin as (i & _ & Hs). unfold step_thread in Hs.
  destruct (c_status c); [contradiction|discriminate|discriminate].
Qed.

Lemma block_pool_length p fin :
  length (c_pool (st p fin)) = S (Nat.min p n).
Proof. simpl. now rewrite length_fmap, length_seq. Qed.

Lemma block_progress p fin : block_good n p fin -> succs (st p fin) <> [].
Proof.
  intros (Hp & _ & Hlt & Hjoin).
  assert (H : exists c', In c' (succs (st p fin))).
  { destruct (decide (p < n)%nat) as [Hc|Hc].
    - eexists. apply in_succs. exists 0%nat.
      split; [rewrite block_pool_length; lia|].
      apply step_create; [exact Hc|]. intros i Hi. apply Hlt in Hi. lia.
    - destruct (decide (p = 2 * n)%nat) as [->|Hr].
      + eexists. apply in_succs. exists 0%nat.
        split; [rewrite block_pool_length; lia|]. apply step_return.
      + destruct (decide ((p - n)%nat ∈ fin)) as [Hin|Hin].
        * eexists. apply in_succs. exists 0%nat.
          split; [rewrite block_pool_length; lia|].
          rewrite step_join by lia.
          now rewrite bool_decide_eq_true_2 by exact Hin.
        * eexists. apply in_succs. exists (S (p - n)).
          split; [rewrite block_pool_length; lia|].
          rewrite step_task by exact Hp.
          rewrite bool_decide_eq_true_2; [reflexivity|].
          split; [lia|exact Hin]. }
  destruct H as [c' H]. intros E. rewrite E in H. destruct H.
Qed.

Lemma block_succ p fin c' :
  block_good n p fin -> In c' (succs (st p fin)) ->
  (exists p' fin', c' = st p' fin' /\ block_good n p' fin') \/
  (exists fin', c' = final fin' /\ block_done n fin').
Proof.
  intros (Hp & Hnd & Hlt & Hjoin) Hin.
  apply in_succs in Hin as ([|k] & _ & Hs).
  - destruct (decide (p < n)%nat) as [Hc|Hc].
    + rewrite step_create in Hs;
        [|exact Hc|intros i Hi; apply Hlt in Hi; lia].
      injection Hs as <-. left. exists (S p), fin. split; [reflexivity|].
      repeat split; [lia|exact Hnd| |].
      * intros i Hi. apply Hlt in Hi. lia.
      * intros j Hj. lia.
    + destruct (decide (p = 2 * n)%nat) as [->|Hr].
      * rewrite step_return in Hs. injection Hs as <-.
        right. exists fin. split; [reflexivity|]. split; [exact Hnd|].
        intros i. split.
        -- intros Hi. apply Hlt in Hi. lia.
        -- intros Hi. apply Hjoin. lia.
      * rewrite step_join in Hs by lia.
        destruct (decide ((p - n)%nat ∈ fin)) as [Hj|Hj].
        -- rewrite bool_decide_eq_true_2 in Hs by exact Hj.
           injection Hs as <-. left. exists (S p), fin.
           split; [reflexivity|]. repeat split; [lia|exact Hnd| |].
           ++ intros i Hi. apply Hlt in Hi. lia.
           ++ intros j Hlt'. destruct (decide (j = p - n)%nat) as [->|Hne];
                [exact Hj | apply Hjoin; lia].
        -- rewrite bool_decide_eq_false_2 in Hs by exact Hj. discriminate.
  - rewrite step_task in Hs by exact Hp.
    destruct (decide ((k < Nat.min p n)%nat /\ k ∉ fin)) as [[Hk Hnk]|Hk].
    + rewrite bool_decide_eq_true_2 in Hs by tauto.
      injection Hs as <-. left. exists p, (fin ++ [k]).
      split; [reflexivity|]. repeat split; [exact Hp| | |].
      * apply NoDup_app. split; [exact Hnd|]. split; [|apply NoDup_singleton].
        intros x Hx Hxk. apply list_elem_of_singleton in Hxk. now subst x.
      * intros i Hi. apply elem_of_app in Hi as [Hi|Hi]; [now apply Hlt|].
        apply list_elem_of_singleton in Hi. now subst i.
      * intros j Hj. apply elem_of_app. left. now apply Hjoin.
    + rewrite bool_decide_eq_false_2 in Hs by exact Hk. discriminate.
Qed.

Lemma block_runs_aux c cf :
  run c cf ->
  (forall p fin, c = st p fin -> block_good n p fin ->
     exists fin', cf = final fin' /\ block_done n fin') /\
  (forall fin, c = final fin -> cf = final fin).
Proof.
  induction 1 as [c Hc|c c' cf Hin Hrun [IH1 IH2]]; split.
  - intros p fin -> Hg. now apply block_progress in Hg.
  - intros fin ->. reflexivity.
  - intros p fin -> Hg.
    destruct (block_succ p fin c' Hg Hin)
      as [(p' & fin' & -> & Hg')|(fin' & -> & Hd)].
    + exact (IH1 p' fin' eq_refl Hg').
    + exists fin'. split; [exact (IH2 fin' eq_refl)|exact Hd].
  - intros fin ->. rewrite exited_stuck in Hin by discriminate. destruct Hin.
Qed.

Lemma block_runs cf :
  run (st 0 []) cf -> exists fin, cf = final fin /\ block_done n fin.
Proof.
  intros Hrun. apply (proj1 (block_runs_aux _ _ Hrun) 0%nat []); [reflexivity|].
  repeat split; [lia|apply NoDup_nil_2| |].
  - intros i Hi. apply elem_of_nil in Hi. destruct Hi.
  - intros j Hj. lia.
Qed.

Lemma block_done_perm fin : block_done n fin -> Permutation fin (seq 0 n).
Proof.
  intros [Hnd Hin]. apply NoDup_Permutation; [exact Hnd|apply NoDup_seq|].
  intros i. rewrite Hin, elem_of_seq. lia.
Qed.

Lemma block_final_pool fin :
  block_done n fin -> Forall (eq []) (c_pool (final fin)).
Proof.
  intros [_ Hin]. simpl. constructor; [reflexivity|].
  apply Forall_fmap, Forall_forall. intros i Hi. simpl.
  apply elem_of_seq in Hi. unfold task_code.
  rewrite bool_decide_eq_true_2; [reflexivity|]. apply Hin. lia.
Qed.

End ParBlockRuns.

(** Lines of a trace *)

Lemma lines_app t u : lines (t ++ u) = lines t ++ lines u.
Proof. unfold lines, stdout. now rewrite map_app, omap_app. Qed.

Lemma lines_main t : lines (map (pair 0%nat) t) = stdout t.
Proof.
  unfold lines. f_equal. induction t as [|e t IH]; simpl; [reflexivity|].
  now rewrite IH.
Qed.

Lemma lines_task evs i :
  lines (task_trace evs i) = stdout (default [] (evs !! i)).
Proof.
  unfold lines, task_trace. simpl. f_equal.
  induction (default [] (evs !! i)) as [|e t IH]; simpl; [reflexivity|].
  now rewrite IH.
Qed.

Lemma lines_tasks evs order :
  lines (concat (map (task_trace evs) order))
  = concat (map (fun i => stdout (default [] (evs !! i))) order).
Proof.
  induction order as [|i order IH]; cbn [map concat]; [reflexivity|].
  now rewrite lines_app, lines_task, IH.
Qed.

Lemma concat_map_perm {A B} (h : A -> list B) l l' :
  Permutation l l' -> Permutation (concat (map h l)) (concat (map h l')).
Proof.
  induction 1 as [|x l l' _ IH|x y l|l l' l'' _ IH1 _ IH2]; simpl.
  - apply Permutation_refl.
  - now apply Permutation_app_head.
  - rewrite !app_assoc. apply Permutation_app_tail, Permutation_app_comm.
  - now rewrite IH1.
Qed.

Lemma map_lookup_seq {A B} (h : A -> B) (d : A) (l : list A) :
  map (fun i => h (default d (l !! i))) (seq 0 (length l)) = map h l.
Proof.
  induction l as [|x l IH] using rev_ind; [reflexivity|].
  rewrite length_app. cbn [length]. rewrite Nat.add_1_r, seq_S, !map_app.
  cbn [map Nat.add]. rewrite list_lookup_middle by reflexivity.
  cbn [default]. f_equal.
  rewrite <- IH. apply map_ext_in. intros i Hi. apply in_seq in Hi.
  now rewrite lookup_app_l by lia.
Qed.

Lemma run_head m rest hs w1 cf :
  m empty_world = Ok (tt, w1) ->
  run (init {| handles := hs; code := ADo m :: rest |}) cf ->
  run {| c_pool := [rest];
         c_handles := replicate hs None;
         c_mem := w_mem w1;
         c_trace := map (pair 0%nat) (w_trace w1);
         c_status := Running |} cf.
Proof.
  intros H Hrun.
  assert (E : succs (init {| handles := hs; code := ADo m :: rest |})
              = [ {| c_pool := [rest];
                     c_handles := replicate hs None;
                     c_mem := w_mem w1;
                     c_trace := map (pair 0%nat) (w_trace w1);
                     c_status := Running |} ]).
  { unfold init, succs, step_thread. simpl.
    unfold empty_world in H. rewrite H. reflexivity. }
  inversion Hrun as [c Hc|c c' cf' Hin Hrun']; subst.
  - rewrite E in Hc. discriminate.
  - rewrite E in Hin. destruct Hin as [<-|[]]. exact Hrun'.
Qed.

Lemma block_state_start evs rc mem pre :
  block_state evs rc mem pre 0 []
  = {| c_pool := [par_block (emits <$> evs) rc];
       c_handles := replicate (length evs) None;
       c_mem := mem;
       c_trace := pre;
       c_status := Running |}.
Proof.
  unfold block_state, block_handles. simpl.
  now rewrite Nat.sub_0_r, app_nil_r.
Qed.

(** Where every schedule of a block ends. *)
Lemma par_block_final head evs rc w1 cf :
  head empty_world = Ok (tt, w1) ->
  run (init {| handles := length evs;
               code := ADo head :: par_block (emits <$> evs) rc |}) cf ->
  exists fin,
    cf = block_final evs rc (w_mem w1) (map (pair 0%nat) (w_trace w1)) fin /\
    block_done (length evs) fin.
Proof.
  intros Hhead Hrun. apply (run_head _ _ _ _ _ Hhead) in Hrun.
  rewrite <- block_state_start in Hrun. now apply block_runs in Hrun.
Qed.

Lemma block_final_length evs rc mem pre fin :
  length (c_pool (block_final evs rc mem pre fin)) = S (length evs).
Proof. simpl. now rewrite length_fmap, length_seq. Qed.

Lemma block_final_lines evs rc mem t fin :
  block_done (length evs) fin ->
  Permutation (lines (c_trace (block_final evs rc mem (map (pair 0%nat) t) fin)))
              (stdout t ++ concat (map stdout evs)).
Proof.
  intros Hd. pose proof (block_done_perm evs fin Hd) as Hperm.
  cbn [block_final c_trace].
  rewrite !lines_app, lines_main, lines_tasks.
  change (lines [(0%nat, EvExit rc)]) with (@nil string). rewrite app_nil_r.
  apply Permutation_app_head.
  rewrite <- (map_lookup_seq stdout [] evs).
  now apply (concat_map_perm (fun i => stdout (default [] (evs !! i)))).
Qed.



(** ** toyhash_parallel.c: every schedule *)

(** The events of the four workers, in the order of their slots. *)
Lemma toyhash_worker_emits name seed fuel :
  0 <= seed < 2147483647 -> (2500 <= fuel)%N ->
  ToyhashParallel.worker name seed fuel
  = emits [EvCall name; EvOut (pretty (toyhash seed))].
Proof.
  intros Hseed Hfuel. extensionality w. now apply worker_run.
Qed.

Lemma toyhash_main_block fuel :
  (2500 <= fuel)%N ->
  ToyhashParallel.main fuel
  = {| handles := length toyhash_events;
       code := ADo (enter "main") :: par_block (emits <$> toyhash_events) 0 |}.
Proof.
  intros Hfuel. unfold ToyhashParallel.main, ToyhashParallel.__par_fns1.
  unfold ToyhashParallel.worker1, ToyhashParallel.worker2,
    ToyhashParallel.worker3, ToyhashParallel.worker4.
  rewrite !toyhash_worker_emits by (exact Hfuel || lia).
  reflexivity.
Qed.

(** With fuel for the 2500 outer rounds of each worker, every schedule of
    toyhash_parallel.c ends within fourteen steps by the return of [main]
    with status 0; by then the four worker threads have finished, and the
    output is the four hashes of the seeds 7, 11, 13 and 17, one line
    each, in some order.  At least one schedule exists. *)
Theorem toyhash_every_schedule :
  forall fuel, (2500 <= fuel)%N ->
    let c0 := init (ToyhashParallel.main fuel) in
    ~ In None (finals 14 c0) /\
    (exists cf, run c0 cf) /\
    (forall cf, run c0 cf ->
       c_status cf = Exited 0 /\
       length (c_pool cf) = 5%nat /\
       Forall (eq []) (c_pool cf) /\
       last (c_trace cf) = Some (0%nat, EvExit 0) /\
       Permutation (lines (c_trace cf))
         [pretty (toyhash 7); pretty (toyhash 11);
          pretty (toyhash 13); pretty (toyhash 17)]).
Proof.
  intros fuel Hfuel c0. subst c0. split; [|split].
  - apply finals_bounded. apply Nat.eq_le_incl. reflexivity.
  - apply run_exists.
  - intros cf Hrun. rewrite toyhash_main_block in Hrun by exact Hfuel.
    apply (par_block_final _ _ _ (emit empty_world [EvCall "main"])) in Hrun
      as (fin & -> & Hd); [|reflexivity].
    split; [reflexivity|]. split; [apply block_final_length|].
    split; [now apply block_final_pool|]. split.
    + cbn [block_final c_trace]. apply last_snoc.
    + exact (block_final_lines toyhash_events 0 _ [EvCall "main"] fin Hd).
Qed.

Lemma toyhash_every_schedule_witness :
  (2500 <= 2500)%N /\
  ~ In None (finals 14 (init (ToyhashParallel.main 2500))).
Proof.
  assert (H : (2500 <= 2500)%N) by lia.
  split; [exact H | exact (proj1 (toyhash_every_schedule 2500%N H))].
Defined.


(** ** for_array.c: the loops on any array and any slice *)

Lemma load_ok p v w :
  peek (w_mem w) p = Some (Some v) -> load p w = Ok (v, emit w [EvLoad p]).
Proof. unfold load. now intros ->. Qed.

Lemma ptr_add_add p a b : ptr_add (ptr_add p a) b = ptr_add p (a + b).
Proof. unfold ptr_add. simpl. f_equal. lia. Qed.

Lemma loop_trace_snoc ce be p vs v :
  loop_trace ce be p (vs ++ [v])
  = loop_trace ce be p vs
    ++ ce ++ be ++ [EvLoad (ptr_add p (length vs)); EvOut (pretty v)].
Proof.
  revert p. induction vs as [|x vs IH]; intros p; cbn [loop_trace app length].
  - destruct p as [b o]. unfold ptr_add. simpl.
    now rewrite Nat.add_0_r.
  - rewrite IH, ptr_add_add. rewrite <- !app_assoc. reflexivity.
Qed.

Lemma loop_trace_stdout ce be p vs :
  stdout ce = [] -> stdout be = [] ->
  stdout (loop_trace ce be p vs) = map pretty vs.
Proof.
  intros Hce Hbe. revert p. unfold stdout in *.
  induction vs as [|v vs IH]; intros p; cbn [loop_trace map]; [reflexivity|].
  rewrite !omap_app, Hce, Hbe, IH. reflexivity.
Qed.

Lemma loop_trace_loads ce be p vs :
  omap load_of ce = [] -> omap load_of be = [] ->
  omap load_of (loop_trace ce be p vs) = map (ptr_add p) (seq 0 (length vs)).
Proof.
  intros Hce Hbe. revert p.
  induction vs as [|v vs IH]; intros p; cbn [loop_trace length seq map];
    [reflexivity|].
  rewrite !omap_app, Hce, Hbe, IH. simpl. f_equal.
  - destruct p as [b o]. unfold ptr_add. simpl. now rewrite Nat.add_0_r.
  - rewrite <- seq_shift, map_map. apply map_ext. intros k.
    apply ptr_add_add.
Qed.

Lemma loop_trace_filter (P : event -> bool) ce be p vs :
  filter (fun e => P e = true) ce = [] ->
  filter (fun e => P e = true) be = [] ->
  (forall q, P (EvLoad q) = false) -> (forall l, P (EvOut l) = false) ->
  filter (fun e => P e = true) (loop_trace ce be p vs) = [].
Proof.
  intros Hce Hbe Hl Ho. revert p.
  induction vs as [|v vs IH]; intros p; cbn [loop_trace]; [reflexivity|].
  rewrite !filter_app, Hce, Hbe, IH. cbn [app].
  rewrite filter_cons_False by (rewrite Hl; discriminate).
  rewrite filter_cons_False by (rewrite Ho; discriminate).
  reflexivity.
Qed.

(** A loop whose test logs [ce] and compares the index with [n], and
    whose body logs [be], loads the cell of the index and prints it. *)
Lemma visit_loop (cond : Z -> M bool) (body : Z -> M Z) ce be p vs fuel w :
  (Z.of_nat (length vs) < 2 ^ 64) ->
  (forall i w', cond i w' = Ok (i <? Z.of_nat (length vs), emit w' ce)) ->
  (forall i w' v, peek (w_mem w') (ptr_add p (Z.to_nat i)) = Some (Some v) ->
     body i w'
     = Ok (i, emit w' (be ++ [EvLoad (ptr_add p (Z.to_nat i)); EvOut (pretty v)]))) ->
  holds (w_mem w) p vs ->
  (N.of_nat (length vs) <= fuel)%N ->
  for_loop cond body SliceI32.size_succ fuel 0 w
  = Ok (Z.of_nat (length vs), emit w (loop_trace ce be p vs ++ ce)).
Proof.
  intros Hn Hcond Hbody Hcells Hfuel. unfold for_loop.
  pose (I := fun (i : Z) (w' : world) =>
               exists k, i = Z.of_nat k /\ (k <= length vs)%nat /\
                         w' = emit w (loop_trace ce be p (take k vs))).
  pose (Q := fun (i : Z) (w' : world) =>
               i = Z.of_nat (length vs) /\
               w' = emit w (loop_trace ce be p vs ++ ce)).
  match goal with |- while_loop ?c ?d _ _ _ = _ =>
    assert (H : total (while_loop c d fuel 0) w Q)
  end.
  { apply (while_total _ _ (fun i => Z.to_N (Z.of_nat (length vs) - i)) I).
    - intros i w' (k & -> & Hk & ->). unfold total, wp.
      rewrite Hcond.
      destruct (Z.ltb_spec (Z.of_nat k) (Z.of_nat (length vs))) as [Hlt|Hge].
      + destruct (lookup_lt_is_Some_2 vs k ltac:(lia)) as [v Hv].
        unfold total, wp. cbv beta.
        match goal with |- context [bind (body ?i) _ ?w0] =>
          pose proof (Hbody i w0 v) as Hb
        end.
        rewrite Nat2Z.id in Hb. specialize (Hb (Hcells k v Hv)).
        rewrite (bind_ok _ _ _ _ _ Hb).
        unfold ret. split; [|unfold SliceI32.size_succ;
                              rewrite Z.mod_small by lia; lia].
        exists (S k). split.
        { unfold SliceI32.size_succ. rewrite Z.mod_small by lia. lia. }
        split; [lia|].
        rewrite (take_S_r _ _ _ Hv), loop_trace_snoc, !emit_emit.
        rewrite length_take, Nat.min_l by lia.
        rewrite <- ?app_assoc. reflexivity.
      + split; [lia|]. rewrite emit_emit, take_ge by lia. reflexivity.
    - exists 0%nat. split; [reflexivity|]. split; [lia|].
      cbn [take loop_trace]. now rewrite emit_nil.
    - lia. }
  apply total_ok in H as (i & w' & -> & -> & ->). reflexivity.
Qed.

Lemma for_array_main_loops fuel :
  ForArray.main fuel
  = (enter "main";;
     let* nums := alloc [Some 1; Some 2; Some 3] in
     for_fixed3 nums fuel;;
     let* s_data := alloc [Some 4; Some 5; Some 6] in
     for_slice {| SliceI32.data := s_data; SliceI32.len := 3 |} fuel;;
     ret 0)%C.
Proof.
  extensionality w. unfold ForArray.main, for_slice, for_fixed3, bind.
  destruct (enter "main" w) as [[[] w1]|e]; [|reflexivity].
  destruct (alloc _ w1) as [[nums w2]|e]; [|reflexivity].
  destruct (for_loop _ _ _ fuel 0 w2) as [[i w3]|e]; [|reflexivity].
  destruct (alloc _ w3) as [[s_data w4]|e]; [|reflexivity].
  destruct (rdvar "s" _ w4) as [[it w5]|e]; [|reflexivity].
  reflexivity.
Qed.

(** The loop of for_array.c over a slice, for any slice whose [len] cells
    hold initialised values [vs] (fewer than 2^64) and fuel for [len]
    rounds: it reads the slice variable once, prints the values of the
    cells in ascending order and nothing else, loads the cells 0 to
    [len - 1] behind the pointer in that order, stores nothing and leaves
    the memory as it was; on an empty slice it prints and loads nothing. *)
Theorem for_slice_visits_cells :
  forall (s : SliceI32.slice_i32) (vs : list Z) (fuel : N) (w : world),
    SliceI32.len s = Z.of_nat (length vs) ->
    Z.of_nat (length vs) < 2 ^ 64 ->
    holds (w_mem w) (SliceI32.data s) vs ->
    (N.of_nat (length vs) <= fuel)%N ->
    exists t,
      for_slice s fuel w = Ok (SliceI32.len s, emit w t) /\
      stdout t = map pretty vs /\
      omap load_of t = map (ptr_add (SliceI32.data s)) (seq 0 (length vs)) /\
      filter (fun e => is_var_read "s" e = true) t = [EvVar "s"] /\
      filter (fun e => is_store e = true) t = [].
Proof.
  intros s vs fuel w Hlen Hn Hcells Hfuel.
  set (ce := [EvField "__iter3" "len"]).
  set (be := [EvField "__iter3" "data"]).
  exists (EvVar "s" :: loop_trace ce be (SliceI32.data s) vs ++ ce).
  split; [|split; [|split; [|split]]].
  - unfold for_slice.
    rewrite (bind_ok (rdvar "s" s) _ w s (emit w [EvVar "s"]) eq_refl).
    rewrite (visit_loop _ _ ce be (SliceI32.data s) vs); try assumption.
    + rewrite emit_emit, Hlen. reflexivity.
    + intros i w'. rewrite Hlen. reflexivity.
    + intros i w' v Hv.
      rewrite (bind_ok (rd "__iter3" "data" (SliceI32.data s)) _ w'
                 (SliceI32.data s) (emit w' be) eq_refl).
      rewrite (bind_ok _ _ _ _ _ (load_ok _ v (emit w' be) Hv)).
      rewrite (bind_ok _ _ _ _ _ (printf_d_ok _ _)).
      unfold ret. now rewrite !emit_emit.
  - change (stdout (EvVar "s" :: ?l)) with (stdout l).
    unfold stdout. rewrite omap_app. fold (stdout ce).
    fold (stdout (loop_trace ce be (SliceI32.data s) vs)).
    rewrite loop_trace_stdout by reflexivity. apply app_nil_r.
  - change (omap load_of (EvVar "s" :: ?l)) with (omap load_of l).
    rewrite omap_app, loop_trace_loads by reflexivity. apply app_nil_r.
  - rewrite filter_cons_True by reflexivity.
    rewrite filter_app, (loop_trace_filter (is_var_read "s")) by reflexivity.
    reflexivity.
  - rewrite filter_cons_False by discriminate.
    rewrite filter_app, (loop_trace_filter is_store) by reflexivity.
    reflexivity.
Qed.

Lemma for_slice_visits_cells_witness :
  let s := {| SliceI32.data := Ptr 0 1; SliceI32.len := 2 |} in
  let w := {| w_mem := [[None; Some 8; Some (-9)]]; w_trace := [] |} in
  exists t, for_slice s 2 w = Ok (2, emit w t) /\ stdout t = ["8"; "-9"].
Proof.
  intros s w. pose (vs := [8; -9]).
  assert (H1 : SliceI32.len s = Z.of_nat (length vs)) by reflexivity.
  assert (H2 : Z.of_nat (length vs) < 2 ^ 64) by (simpl; lia).
  assert (H3 : holds (w_mem w) (SliceI32.data s) vs).
  { intros [|[|k]] v Hv; simpl in Hv; try discriminate;
      injection Hv as <-; reflexivity. }
  assert (H4 : (N.of_nat (length vs) <= 2)%N) by (simpl; lia).
  destruct (for_slice_visits_cells s vs 2%N w H1 H2 H3 H4)
    as (t & Ht & Hout & _).
  exists t. split; [exact Ht | exact Hout].
Defined.

(** The loop of for_array.c over a fixed array of three elements, for any
    array whose three cells hold initialised values: it prints the three
    values in ascending order of their index, loads each cell once in
    that order, and leaves the memory as it was. *)
Theorem for_fixed3_visits_cells :
  forall (nums : ptr) (a b c : Z) (fuel : N) (w : world),
    holds (w_mem w) nums [a; b; c] ->
    (3 <= fuel)%N ->
    for_fixed3 nums fuel w
    = Ok (3, emit w [EvLoad nums; EvOut (pretty a);
                     EvLoad (ptr_add nums 1); EvOut (pretty b);
                     EvLoad (ptr_add nums 2); EvOut (pretty c)]).
Proof.
  intros nums a b c fuel w Hcells Hfuel. unfold for_fixed3.
  rewrite (visit_loop _ _ [] [] nums [a; b; c]).
  - cbn [loop_trace app length]. rewrite !ptr_add_add. reflexivity.
  - simpl. lia.
  - intros i w'. unfold ret. now rewrite emit_nil.
  - intros i w' v Hv.
    rewrite (bind_ok _ _ _ _ _ (load_ok _ v w' Hv)).
    rewrite (bind_ok _ _ _ _ _ (printf_d_ok _ _)).
    unfold ret. now rewrite !emit_emit.
  - exact Hcells.
  - simpl. lia.
Qed.

Lemma for_fixed3_visits_cells_witness :
  let w := {| w_mem := [[Some 5; Some 6; Some 7]]; w_trace := [] |} in
  for_fixed3 (Ptr 0 0) 3 w
  = Ok (3, emit w [EvLoad (Ptr 0 0); EvOut (pretty 5);
                   EvLoad (ptr_add (Ptr 0 0) 1); EvOut (pretty 6);
                   EvLoad (ptr_add (Ptr 0 0) 2); EvOut (pretty 7)]).
Proof.
  intros w.
  assert (H1 : holds (w_mem w) (Ptr 0 0) [5; 6; 7]).
  { intros [|[|[|k]]] v Hv; simpl in Hv; try discriminate;
      injection Hv as <-; reflexivity. }
  assert (H2 : (3 <= 3)%N) by lia.
  exact (for_fixed3_visits_cells (Ptr 0 0) 5 6 7 3%N w H1 H2).
Defined.

(** ** function_arrays.c: unwrapping the array result *)

Lemma ptr_add_0 p : ptr_add p 0 = p.
Proof. destruct p as [b o]. unfold ptr_add. simpl. now rewrite Nat.add_0_r. Qed.

Lemma ptr_add_ne p k : ptr_add p (S k) <> p.
Proof. destruct p as [b o]. unfold ptr_add. simpl. intros [= H]. lia. Qed.

Lemma peek_poke_ne m p q v : p <> q -> peek (poke m p v) q = peek m q.
Proof.
  intros Hne. unfold peek, poke.
  destruct (m !! p_blk p) as [b|] eqn:Eb; [|reflexivity].
  destruct (decide (p_blk p = p_blk q)) as [E|E].
  - rewrite <- E, list_lookup_insert_eq by (eapply lookup_lt_Some; exact Eb).
    rewrite Eb. apply list_lookup_insert_ne.
    intros Ho. apply Hne. destruct p, q. simpl in *. congruence.
  - now rewrite list_lookup_insert_ne by exact E.
Qed.

Lemma store_ok p v w c :
  peek (w_mem w) p = Some c ->
  store p v w = Ok (tt, {| w_mem := poke (w_mem w) p v;
                           w_trace := w_trace w ++ [EvStore p] |}).
Proof. unfold store. now intros ->. Qed.

(** [memcpy] of [n] elements writes them to the [n] cells from [dst] on,
    initialised or not, and to no other cell. *)
Lemma memcpy_cells n :
  forall dst src w,
    (n <= length src)%nat ->
    (forall k, (k < n)%nat -> is_Some (peek (w_mem w) (ptr_add dst k))) ->
    exists w',
      memcpy dst src n w = Ok (tt, w') /\
      holds (w_mem w') dst (take n src) /\
      (forall q, outside dst n q -> peek (w_mem w') q = peek (w_mem w) q) /\
      w_trace w' = w_trace w ++ map (fun k => EvStore (ptr_add dst k)) (seq 0 n).
Proof.
  induction n as [|n IH]; intros dst src w Hlen Hvalid.
  - exists w. split; [destruct src; reflexivity|]. split; [|split].
    + intros k v Hv. rewrite take_0 in Hv. discriminate.
    + reflexivity.
    + simpl. now rewrite app_nil_r.
  - destruct src as [|v src]; [simpl in Hlen; lia|].
    destruct (Hvalid 0%nat ltac:(lia)) as [c Hc]. rewrite ptr_add_0 in Hc.
    cbn [memcpy]. rewrite (bind_ok _ _ _ _ _ (store_ok dst v w c Hc)).
    set (w1 := {| w_mem := poke (w_mem w) dst v;
                  w_trace := w_trace w ++ [EvStore dst] |}).
    destruct (IH (ptr_add dst 1) src w1) as (w' & E & Hcells & Hout & Htr);
      [simpl in Hlen; lia| |].
    { intros k Hk. unfold w1. cbn [w_mem]. rewrite ptr_add_add.
      rewrite peek_poke_ne by (symmetry; apply ptr_add_ne).
      apply Hvalid. lia. }
    exists w'. split; [exact E|]. split; [|split].
    + intros [|k] x Hx; simpl in Hx.
      * injection Hx as <-. rewrite ptr_add_0.
        rewrite Hout; [unfold w1; cbn [w_mem]; exact (peek_poke _ _ _ _ Hc)|].
        intros k Hk. rewrite ptr_add_add. symmetry. apply ptr_add_ne.
      * specialize (Hcells k x Hx). now rewrite ptr_add_add in Hcells.
    + intros q Hq. rewrite Hout.
      * unfold w1. cbn [w_mem]. apply peek_poke_ne. intros ->.
        apply (Hq 0%nat); [lia|]. now rewrite ptr_add_0.
      * intros k Hk. rewrite ptr_add_add. apply Hq. lia.
    + rewrite Htr. unfold w1. cbn [w_trace seq map].
      rewrite ptr_add_0, <- app_assoc.
      cbn [app]. f_equal. f_equal.
      rewrite <- seq_shift, map_map. apply map_ext. intros k.
      now rewrite ptr_add_add.
Qed.

Lemma function_arrays_main_unwrap :
  FunctionArrays.main
  = (enter "main";;
     let* arr := alloc [None; None; None] in
     unwrap_make3 arr;;
     let* x := FunctionArrays.first arr in
     printf_d x;;
     let* s_data := alloc [Some 4; Some 5; Some 6] in
     let s := {| SliceI32.data := s_data; SliceI32.len := 3 |} in
     let* s2 := (let* a := rdvar "s" s in FunctionArrays.id_slice a) in
     let* d := rd "s2" "data" (SliceI32.data s2) in
     let* y := load (ptr_add d 1) in
     printf_d y;;
     ret 0)%C.
Proof.
  extensionality w. unfold FunctionArrays.main, unwrap_make3, bind.
  destruct (enter "main" w) as [[[] w1]|e]; [|reflexivity].
  destruct (alloc _ w1) as [[arr w2]|e]; [|reflexivity].
  destruct (FunctionArrays.make3 w2) as [[r w3]|e]; reflexivity.
Qed.

(** The unwrapping statement of function_arrays.c, on any array of three
    cells, initialised or not: it succeeds, the three cells then hold 7,
    8 and 9, every other cell of the memory is as before, the events are
    the call of [make3] and the three stores in ascending order, and
    [first] of the array then returns 7 without changing the memory. *)
Theorem unwrap_make3_copies :
  forall (arr : ptr) (w : world),
    (forall k, (k < 3)%nat -> is_Some (peek (w_mem w) (ptr_add arr k))) ->
    exists w',
      unwrap_make3 arr w = Ok (tt, w') /\
      holds (w_mem w') arr [7; 8; 9] /\
      (forall q, outside arr 3 q -> peek (w_mem w') q = peek (w_mem w) q) /\
      w_trace w'
      = w_trace w ++ [EvCall "make3"; EvStore arr;
                      EvStore (ptr_add arr 1); EvStore (ptr_add arr 2)] /\
      FunctionArrays.first arr w'
      = Ok (7, emit w' [EvCall "first"; EvLoad (ptr_add arr 0)]).
Proof.
  intros arr w Hvalid. unfold unwrap_make3.
  rewrite (bind_ok _ _ _ _ _ (make3_run w)).
  destruct (memcpy_cells 3 arr [7; 8; 9] (emit w [EvCall "make3"]))
    as (w' & E & Hcells & Hout & Htr); [simpl; lia|exact Hvalid|].
  exists w'. split; [exact E|]. split; [exact Hcells|].
  split; [exact Hout|]. split.
  - rewrite Htr. cbn [emit w_trace seq map]. rewrite ptr_add_0, <- app_assoc.
    reflexivity.
  - unfold FunctionArrays.first.
    rewrite (bind_ok (enter "first") _ w' tt (emit w' [EvCall "first"]) eq_refl).
    rewrite (load_ok _ 7); [now rewrite emit_emit|].
    cbn [emit w_mem]. exact (Hcells 0%nat 7 eq_refl).
Qed.

Lemma unwrap_make3_copies_witness :
  let w := {| w_mem := [[Some 1; None; None; Some 2]]; w_trace := [] |} in
  exists w', unwrap_make3 (Ptr 0 1) w = Ok (tt, w') /\
             holds (w_mem w') (Ptr 0 1) [7; 8; 9].
Proof.
  intros w.
  assert (H : forall k, (k < 3)%nat ->
                is_Some (peek (w_mem w) (ptr_add (Ptr 0 1) k))).
  { intros [|[|[|k]]] Hk; try lia; eexists; reflexivity. }
  destruct (unwrap_make3_copies (Ptr 0 1) w H) as (w' & E & Hc & _).
  exists w'. split; [exact E | exact Hc].
Defined.

(** ** try_catch.c *)

(** try_catch.c, from any world: [fail] returns the error boom; [main]
    tests the discriminant once, reads the error field only, never the
    value field, prints the single line boom and returns 0. *)
Theorem try_catch_handles_boom :
  forall w,
    TryCatch.fail w = Ok (boom, emit w [EvCall "fail"; EvCall "err_i32_str_err"]) /\
    exists t,
      TryCatch.main w = Ok (0, emit w t) /\
      stdout t = ["boom"] /\
      filter (fun e => is_field_read "ok" e = true) t = [EvField "__try0" "ok"] /\
      filter (fun e => is_field_read "err" e = true) t = [EvField "__try0" "err"] /\
      filter (fun e => is_field_read "value" e = true) t = [] /\
      filter (fun e => is_call "err_i32_str_ok" e = true) t = [].
Proof.
  intros w. split.
  - unfold emit; cbn; rewrite <- ?app_assoc; reflexivity.
  - exists [EvCall "main"; EvCall "fail"; EvCall "err_i32_str_err";
            EvField "__try0" "ok"; EvField "__try0" "err"; EvOut "boom"].
    split; [|repeat split; reflexivity].
    unfold emit; cbn; rewrite <- ?app_assoc; reflexivity.
Qed.

(** ** parallel.c, parallel_block_bench.c: no task outlives its block *)







